(** * Verification of the DataTable and InputField components

    A shallow embedding of [components/DataTable/DataTable.tsx] and
    [components/InputField/InputField.tsx].  Component state held by
    [useState] is an explicit record, an event handler is a function from the
    state before the event to the state after it together with the calls it
    makes to the owner's callbacks, and what the component returns is a
    first-order description of the rendered tree. *)

From stdpp Require Import base decidable countable gmap strings list sorting pretty.

Local Open Scope Z_scope.

(** ** The JavaScript values and runtime functions the components use *)

Module JS.

(** The values a record field can hold, as far as they are modelled: the
    primitive values, with the integers for the numbers.  [NaN], the
    infinities and the fractions, and the arrays and other objects a
    [Record<string, any>] may also hold, are outside the model; a property
    stated of a value is stated of these values. *)
Inductive Value : Type :=
  | VUndefined
  | VNull
  | VBool (b : bool)
  | VNumber (n : Z)
  | VString (s : string).

#[export] Instance Value_eq_dec : EqDecision Value.
Proof. solve_decision. Defined.

Definition Value_encode (v : Value) : unit + unit + bool + Z + string :=
  match v with
  | VUndefined => inl (inl (inl (inl tt)))
  | VNull => inl (inl (inl (inr tt)))
  | VBool b => inl (inl (inr b))
  | VNumber n => inl (inr n)
  | VString s => inr s
  end.

Definition Value_decode (x : unit + unit + bool + Z + string) : Value :=
  match x with
  | inl (inl (inl (inl _))) => VUndefined
  | inl (inl (inl (inr _))) => VNull
  | inl (inl (inr b)) => VBool b
  | inl (inr n) => VNumber n
  | inr s => VString s
  end.

#[export] Instance Value_countable : Countable Value.
Proof.
  apply (inj_countable' Value_encode Value_decode).
  intros []; reflexivity.
Defined.

(** [v === null || v === undefined] *)
Definition nullish (v : Value) : bool :=
  match v with
  | VNull | VUndefined => true
  | _ => false
  end.

(** [String(v)]; an integer is written with all its digits, as JavaScript
    writes it below 1e21. *)
Definition toString (v : Value) : string :=
  match v with
  | VUndefined => "undefined"
  | VNull => "null"
  | VBool true => "true"
  | VBool false => "false"
  | VNumber n => pretty n
  | VString s => s
  end.

(** A record is an object read by property name; reading a property the
    object does not have gives [undefined]. *)
Abbreviation Record := (gmap string Value).

Definition get (record : Record) (field : string) : Value :=
  default VUndefined (record !! field).

(** [a ?? b] *)
Definition nullish_coalesce (a b : Value) : Value :=
  if nullish a then b else a.

(** [String.prototype.localeCompare] belongs to the host's collation.  It
    is taken as a parameter: a function whose sign is reversed when its
    arguments are swapped and whose "not after" relation is transitive. *)
Class LocaleCompare := {
  localeCompare : string → string → Z;
  localeCompare_swap a b :
    Z.sgn (localeCompare b a) = - Z.sgn (localeCompare a b);
  localeCompare_trans a b c :
    localeCompare a b ≤ 0 → localeCompare b c ≤ 0 → localeCompare a c ≤ 0
}.

(** [Array.prototype.find] *)
Fixpoint find {A} (p : A → bool) (l : list A) : option A :=
  match l with
  | [] => None
  | x :: rest => if p x then Some x else find p rest
  end.

(** [Array.prototype.filter], whose callback also receives the index. *)
Fixpoint filter_from {A} (p : A → nat → bool) (start : nat) (l : list A)
  : list A :=
  match l with
  | [] => []
  | x :: rest =>
      if p x start then x :: filter_from p (S start) rest
      else filter_from p (S start) rest
  end.

Definition filter {A} (p : A → nat → bool) (l : list A) : list A :=
  filter_from p 0%nat l.

(** [Array.prototype.map], whose callback also receives the index. *)
Definition map {A B} (f : A → nat → B) (l : list A) : list B :=
  imap (λ i x, f x i) l.

(** [Array.prototype.sort] is the engine's.  ECMAScript asks for a stable
    sort and leaves the order open when the comparator is not consistent;
    the model is the stable insertion sort that engines run on short
    arrays: each element in turn is the pivot, and it is placed in the
    already sorted prefix before the first element that
    [comparefn(pivot, element)] orders it strictly before.  On a consistent
    comparator every stable sort returns this list; on an inconsistent one
    (a column that mixes numbers and strings makes the table's comparator
    one) an engine that searches the prefix by bisection may return
    another. *)
Fixpoint place {A} (comparefn : A → A → Z) (pivot : A) (sorted : list A)
  : list A :=
  match sorted with
  | [] => [pivot]
  | element :: rest =>
      if comparefn pivot element <? 0 then pivot :: element :: rest
      else element :: place comparefn pivot rest
  end.

Definition sort {A} (comparefn : A → A → Z) (l : list A) : list A :=
  foldl (λ sorted pivot, place comparefn pivot sorted) [] l.

(** *** Arrays in the heap

    An array is an object: a variable holds a reference to it, and
    [sort] reorders the array it is called on.  Where aliasing matters the
    arrays live in a store and the array operations are commands of a
    state monad over it; a command fails on a dangling reference. *)
Definition ref := positive.
Abbreviation Heap A := (gmap ref (list A)).

Definition Cmd (A R : Type) : Type := Heap A → option (R * Heap A).

#[export] Instance Cmd_ret {A} : MRet (Cmd A) := λ R (r : R) h, Some (r, h).

#[export] Instance Cmd_bind {A} : MBind (Cmd A) :=
  λ R S (k : R → Cmd A S) (c : Cmd A R) h,
    match c h with
    | Some (r, h') => k r h'
    | None => None
    end.

(** The elements of the array behind a reference. *)
Definition elements {A} (a : ref) : Cmd A (list A) :=
  λ h, match h !! a with
       | Some l => Some (l, h)
       | None => None
       end.

(** A new array object with the given elements. *)
Definition new_array {A} (l : list A) : Cmd A ref :=
  λ h, let a := fresh (dom h) in Some (a, <[a := l]> h).

(** Overwrite the elements of an existing array. *)
Definition store {A} (a : ref) (l : list A) : Cmd A unit :=
  λ h, match h !! a with
       | Some _ => Some (tt, <[a := l]> h)
       | None => None
       end.

(** [[...a]]: a fresh array with the elements of [a]. *)
Definition spread {A} (a : ref) : Cmd A ref :=
  l ← elements a; new_array l.

(** [a.sort(comparefn)]: sorts [a] in place and returns [a] itself. *)
Definition sort_in_place {A} (comparefn : A → A → Z) (a : ref) : Cmd A ref :=
  l ← elements a; _ ← store a (sort comparefn l); mret a.

(** *** Notions the guarantees of [sort] are stated with *)

(** The elements of class [late] stand behind all others. *)
Definition late_last {A} (late : A → bool) (l : list A) : Prop :=
  ∃ front back, l = front ++ back
    ∧ Forall (λ x, late x = false) front ∧ Forall (λ x, late x = true) back.

(** The comparator does not order [a] after [b]. *)
Definition not_after {A} (comparefn : A → A → Z) (a b : A) : Prop :=
  comparefn a b ≤ 0.

End JS.

(** ** DataTable.tsx *)

Module SortState.

Inductive SortDirection : Type := asc | desc.

#[export] Instance SortDirection_eq_dec : EqDecision SortDirection.
Proof. solve_decision. Defined.

(** [interface SortState]; [None] is [null]. *)
Record t : Type := {
  key : option string;
  direction : option SortDirection
}.

#[export] Instance t_eq_dec : EqDecision t.
Proof. solve_decision. Defined.

End SortState.

Module DataTable.
Import JS.
Export SortState (SortDirection, asc, desc).

(** [interface Column<T>]; an absent [sortable] is [false], an absent
    [render] is [None].  What a custom renderer returns is kept as text. *)
Record Column : Type := {
  key : string;
  title : string;
  dataIndex : string;
  sortable : bool;
  render : option (Value → Record → nat → string)
}.

(** The [rowKey] prop: a property name or a function of the record. *)
Inductive RowKey : Type :=
  | RowKeyField (field : string)
  | RowKeyFunction (f : Record → Value).

(** [interface DataTableProps<T>].  [onRowSelect] and [onRowClick] say
    whether the owner passed the callback; what the owner does in it is
    outside the component, so a handler reports the calls it makes. *)
Record Props : Type := {
  data : list Record;
  columns : list Column;
  loading : bool;
  selectable : bool;
  onRowSelect : bool;
  emptyMessage : option string;
  rowKey : option RowKey;
  onRowClick : bool
}.

(** The two [useState] cells. *)
Record State : Type := {
  selectedRows : gset Value;
  sortState : SortState.t
}.

(** The state a mounted component starts in. *)
Definition initial : State :=
  {| selectedRows := ∅;
     sortState := {| SortState.key := None; SortState.direction := None |} |}.

(** A call made to one of the owner's callbacks. *)
Inductive Call : Type :=
  | RowSelect (selected : list Record)
  | RowClick (record : Record) (index : nat).

(** [callback?.(args)] *)
Definition optional_call (provided : bool) (c : Call) : list Call :=
  if provided then [c] else [].

Definition getRowKey (p : Props) (record : Record) (index : nat) : Value :=
  match default (RowKeyField "id") (rowKey p) with
  | RowKeyFunction f => f record
  | RowKeyField field => nullish_coalesce (get record field) (VNumber (Z.of_nat index))
  end.

(** [columns.find(col => col.key === columnKey)] *)
Definition find_column (cols : list Column) (columnKey : string)
    : option Column :=
  find (λ col, bool_decide (key col = columnKey)) cols.

Section with_locale.
Context `{LocaleCompare}.

(** The comparator passed to [sort] (lines 66-88). *)
Definition compare_rows (column : Column) (dir : SortDirection)
    (a b : Record) : Z :=
  let aValue := get a (dataIndex column) in
  let bValue := get b (dataIndex column) in
  let directed (comparison : Z) :=
    match dir with asc => comparison | desc => - comparison end in
  if nullish aValue then 1
  else if nullish bValue then -1
  else match aValue, bValue with
       | VString aString, VString bString =>
           directed (localeCompare aString bString)
       | VNumber aNumber, VNumber bNumber =>
           directed (aNumber - bNumber)
       | _, _ =>
           directed (localeCompare (toString aValue) (toString bValue))
       end.

(** The column the guards of [sortedData] (lines 59-64) let through: the
    key and the direction are truthy and a column has that key. *)
Definition active_column (cols : list Column) (s : SortState.t)
    : option (Column * SortDirection) :=
  match SortState.key s, SortState.direction s with
  | Some k, Some dir =>
      if bool_decide (k = EmptyString) then None
      else match find_column cols k with
           | Some column => Some (column, dir)
           | None => None
           end
  | _, _ => None
  end.

Definition sortedData (p : Props) (st : State) : list Record :=
  match active_column (columns p) (sortState st) with
  | None => data p
  | Some (column, dir) => sort (compare_rows column dir) (data p)
  end.

(** [sortedData] on the heap: [data] is a reference to the owner's array,
    [[...data]] allocates the copy and [sort] reorders that copy in place. *)
Definition sortedData_cmd (cols : list Column) (s : SortState.t) (data : ref)
    : Cmd Record ref :=
  match active_column cols s with
  | None => mret data
  | Some (column, dir) =>
      copy ← spread data; sort_in_place (compare_rows column dir) copy
  end.

End with_locale.

Definition with_sortState (st : State) (s : SortState.t) : State :=
  {| selectedRows := selectedRows st; sortState := s |}.

Definition with_selectedRows (st : State) (sel : gset Value) : State :=
  {| selectedRows := sel; sortState := sortState st |}.

(** The updater passed to [setSortState] (lines 95-104). *)
Definition next_sortState (columnKey : string) (prevState : SortState.t)
    : SortState.t :=
  let restart :=
    {| SortState.key := Some columnKey; SortState.direction := Some asc |} in
  if bool_decide (SortState.key prevState = Some columnKey) then
    match SortState.direction prevState with
    | Some asc =>
        {| SortState.key := Some columnKey; SortState.direction := Some desc |}
    | Some desc =>
        {| SortState.key := None; SortState.direction := None |}
    | None => restart
    end
  else restart.

Definition handleSort (p : Props) (columnKey : string) (st : State) : State :=
  match find_column (columns p) columnKey with
  | Some column =>
      if sortable column
      then with_sortState st (next_sortState columnKey (sortState st))
      else st
  | None => st
  end.

Section handlers.
Context `{LocaleCompare}.

(** The renders that follow a sequence of header activations, on the heap:
    each activation updates the sort state and the component, rendered
    again, computes [sortedData]. *)
Fixpoint activations_cmd (p : Props) (data : ref) (columnKeys : list string)
    (st : State) : Cmd Record State :=
  match columnKeys with
  | [] => mret st
  | columnKey :: rest =>
      let st' := handleSort p columnKey st in
      _ ← sortedData_cmd (columns p) (sortState st') data;
      activations_cmd p data rest st'
  end.

Definition handleSelectAll (p : Props) (st : State) : State * list Call :=
  let rows := sortedData p st in
  if bool_decide (size (selectedRows st) = length rows) then
    (with_selectedRows st ∅, optional_call (onRowSelect p) (RowSelect []))
  else
    let allKeys : gset Value := list_to_set (map (getRowKey p) rows) in
    (with_selectedRows st allKeys,
     optional_call (onRowSelect p) (RowSelect rows)).

Definition handleRowSelect (p : Props) (record : Record) (index : nat)
    (st : State) : State * list Call :=
  let k := getRowKey p record index in
  let newSelectedRows : gset Value :=
    if bool_decide (k ∈ selectedRows st)
    then selectedRows st ∖ {[k]}
    else selectedRows st ∪ {[k]} in
  let selectedData :=
    filter (λ item idx, bool_decide (getRowKey p item idx ∈ newSelectedRows))
      (sortedData p st) in
  (with_selectedRows st newSelectedRows,
   optional_call (onRowSelect p) (RowSelect selectedData)).

End handlers.

(** A DOM element, as far as a selector can tell, and the path of a click:
    the event's target followed by its ancestors, innermost first. *)
Record Element : Type := {
  tagName : string;
  type_attribute : option string
}.

Definition EventPath := list Element.

(** [element.matches('input[type="checkbox"]')] *)
Definition is_checkbox_input (e : Element) : bool :=
  bool_decide (tagName e = "input")
  && bool_decide (type_attribute e = Some "checkbox").

(** [target.closest('input[type="checkbox"]')] *)
Definition closest_checkbox (target : EventPath) : option Element :=
  find is_checkbox_input target.

Definition handleRowClick (p : Props) (record : Record) (index : nat)
    (target : EventPath) : list Call :=
  match closest_checkbox target with
  | Some _ => []
  | None => optional_call (onRowClick p) (RowClick record index)
  end.

(** What the component returns.  A handler attached to an element is kept
    as what the handler does when the element is activated in the rendered
    state. *)
Record Checkbox : Type := {
  checked : bool;
  onChange : State * list Call
}.

Record HeaderCell : Type := {
  header_title : string;
  header_onClick : State;
  aria_sort : option string
}.

Record BodyRow : Type := {
  row_key : Value;
  row_selected : bool;
  row_checkbox : option Checkbox;
  row_cells : list string;
  row_onClick : EventPath → list Call
}.

Inductive View : Type :=
  | LoadingView
  | EmptyView (message : string)
  | TableView (select_all : option Checkbox) (header : list HeaderCell)
      (body : list BodyRow).

(** [column.render ? column.render(value, record, index)
                   : value?.toString() || ''] *)
Definition renderCellContent (column : Column) (record : Record)
    (index : nat) : string :=
  let value := get record (dataIndex column) in
  match render column with
  | Some f => f value record index
  | None => if nullish value then EmptyString else toString value
  end.

Section rendering.
Context `{LocaleCompare}.

Definition render_header (p : Props) (st : State) (column : Column)
    : HeaderCell :=
  {| header_title := title column;
     header_onClick :=
       if sortable column then handleSort p (key column) st else st;
     aria_sort :=
       if sortable column then
         Some (if bool_decide (SortState.key (sortState st) = Some (key column))
               then match SortState.direction (sortState st) with
                    | Some asc => "ascending"
                    | _ => "descending"
                    end
               else "none")
       else None |}.

Definition render_row (p : Props) (st : State) (record : Record)
    (index : nat) : BodyRow :=
  let k := getRowKey p record index in
  let isSelected := bool_decide (k ∈ selectedRows st) in
  {| row_key := k;
     row_selected := isSelected;
     row_checkbox :=
       if selectable p
       then Some {| checked := isSelected;
                    onChange := handleRowSelect p record index st |}
       else None;
     row_cells := (λ column, renderCellContent column record index) <$> columns p;
     row_onClick := handleRowClick p record index |}.

(** The body of the component from line 184 on. *)
Definition render_view (p : Props) (st : State) : View :=
  if loading p then LoadingView
  else if bool_decide (length (data p) = 0%nat) then
    EmptyView (default "No data available" (emptyMessage p))
  else
    let rows := sortedData p st in
    TableView
      (if selectable p
       then Some {| checked :=
                      bool_decide (size (selectedRows st) = length rows)
                      && bool_decide (0 < length rows)%nat;
                    onChange := handleSelectAll p st |}
       else None)
      (render_header p st <$> columns p)
      (map (render_row p st) rows).

End rendering.

(** *** Notions the selection properties are stated with *)

Section selection_notions.
Context `{LocaleCompare}.

(** The keys of the rows shown, in display order. *)
Definition row_keys (p : Props) (st : State) : list Value :=
  map (getRowKey p) (sortedData p st).


(** The records shown whose key is in the selection, in display order. *)
Definition selected_records (p : Props) (st : State) : list Record :=
  filter (λ item idx, bool_decide (getRowKey p item idx ∈ selectedRows st))
    (sortedData p st).


End selection_notions.

(** *** The sort indicator of a header *)

(** The icon [getSortIcon] returns (lines 162-172): the faded chevron for a
    column that is not the sorted one, else the chevron of the direction. *)
Inductive SortIcon : Type := ChevronUpFaded | ChevronUp | ChevronDown.

Definition getSortIcon (st : State) (columnKey : string) : SortIcon :=
  if bool_decide (SortState.key (sortState st) ≠ Some columnKey)
  then ChevronUpFaded
  else match SortState.direction (sortState st) with
       | Some asc => ChevronUp
       | _ => ChevronDown
       end.

(** The icon in the header of a column: only sortable columns have one
    (line 258). *)
Definition header_icon (st : State) (column : Column) : option SortIcon :=
  if sortable column then Some (getSortIcon st (key column)) else None.

(** The state after the headers with the given keys were activated one
    after the other. *)
Definition activate_each (p : Props) (columnKeys : list string) (st : State)
    : State :=
  foldl (λ s columnKey, handleSort p columnKey s) st columnKeys.

(** *** Notions the further properties are stated with *)

(** The parts of a rendered table; a view that is not a table has none. *)
Definition view_select_all (v : View) : option Checkbox :=
  match v with
  | TableView select_all _ _ => select_all
  | _ => None
  end.

Definition view_header (v : View) : list HeaderCell :=
  match v with
  | TableView _ header _ => header
  | _ => []
  end.

Definition view_body (v : View) : list BodyRow :=
  match v with
  | TableView _ _ body => body
  | _ => []
  end.

(** A sort state is either empty or names, with a direction, a key under
    which [find] gives a sortable column. *)
Definition sortState_wf (cols : list Column) (s : SortState.t) : Prop :=
  match SortState.key s, SortState.direction s with
  | None, None => True
  | Some k, Some _ =>
      ∃ column, find_column cols k = Some column ∧ sortable column = true
  | _, _ => False
  end.

(** The key of a record of the table does not depend on its position:
    [rowKey] is a function, or every record has a value under it. *)
Definition position_free_keys (p : Props) : Prop :=
  match default (RowKeyField "id") (rowKey p) with
  | RowKeyFunction _ => True
  | RowKeyField field => ∀ r, r ∈ data p → nullish (get r field) = false
  end.

End DataTable.

(** ** InputField.tsx *)

Module InputField.

Inductive InputType : Type := text | email | password | number | tel | url.

#[export] Instance InputType_eq_dec : EqDecision InputType.
Proof. solve_decision. Defined.

(** [interface InputFieldProps], the props that decide behaviour.  [value]
    is [None] when the owner passes no value; an absent flag is [false] and
    an absent [type] is [None]; [onChange] says whether the owner passed the
    callback. *)
Record Props : Type := {
  value : option string;
  onChange : bool;
  disabled : bool;
  showClearButton : bool;
  type : option InputType;
  loading : bool
}.

(** The two [useState] cells. *)
Record State : Type := {
  showPassword : bool;
  inputValue : string
}.

(** A call of the owner's [onChange] with an event whose [target.value] is
    the given text. *)
Inductive Call : Type :=
  | Change (target_value : string).

Definition optional_call (provided : bool) (c : Call) : list Call :=
  if provided then [c] else [].

(** The initial contents of the state cells (lines 44-45): the password is
    hidden and the buffer holds the [value] prop, or the empty string when
    there is none. *)
Definition mount (p : Props) : State :=
  {| showPassword := false;
     inputValue := default EmptyString (value p) |}.

Definition isPassword (p : Props) : bool :=
  bool_decide (default text (type p) = password).

Definition actualType (p : Props) (st : State) : InputType :=
  if isPassword p then (if showPassword st then text else password)
  else default text (type p).

Definition handleChange (p : Props) (newValue : string) (st : State)
    : State * list Call :=
  ({| showPassword := showPassword st; inputValue := newValue |},
   optional_call (onChange p) (Change newValue)).

Definition handleClear (p : Props) (st : State) : State * list Call :=
  ({| showPassword := showPassword st; inputValue := EmptyString |},
   optional_call (onChange p) (Change EmptyString)).

Definition togglePasswordVisibility (st : State) : State * list Call :=
  ({| showPassword := negb (showPassword st); inputValue := inputValue st |},
   []).

(** A string is truthy when it is not empty. *)
Definition truthy (s : string) : bool := negb (bool_decide (s = EmptyString)).

Record Button : Type := {
  button_disabled : bool;
  onClick : State * list Call;
  aria_label : string
}.

(** The icons container (lines 184-226). *)
Record Icons : Type := {
  spinner : bool;
  clear_button : option Button;
  reveal_toggle : option Button
}.

Record View : Type := {
  input_type : InputType;
  input_value : string;
  input_disabled : bool;
  icons : option Icons
}.

(** The text the input shows (line 167). *)
Definition current_value (p : Props) (st : State) : string :=
  match value p with
  | Some v => v
  | None => inputValue st
  end.

Definition render_view (p : Props) (st : State) : View :=
  {| input_type := actualType p st;
     input_value := current_value p st;
     input_disabled := disabled p || loading p;
     icons :=
       if (showClearButton p && truthy (inputValue st))
          || isPassword p || loading p
       then Some
         {| spinner := loading p;
            clear_button :=
              if showClearButton p && truthy (inputValue st)
                 && negb (loading p)
              then Some {| button_disabled := disabled p;
                           onClick := handleClear p st;
                           aria_label := "Clear input" |}
              else None;
            reveal_toggle :=
              if isPassword p && negb (loading p)
              then Some {| button_disabled := disabled p;
                           onClick := togglePasswordVisibility st;
                           aria_label :=
                             if showPassword st then "Hide password"
                             else "Show password" |}
              else None |}
       else None |}.

(** The clear button and the reveal toggle of a view, when rendered. *)
Definition rendered_clear_button (v : View) : option Button :=
  icons v ≫= clear_button.

Definition rendered_reveal_toggle (v : View) : option Button :=
  icons v ≫= reveal_toggle.

(** The life of a mounted field: the owner renders it again with new props
    (the state cells keep their contents), or the user edits the text,
    activates the clear button or the reveal toggle. *)
Inductive Event : Type :=
  | Rerender (p' : Props)
  | Edit (newValue : string)
  | Clear
  | Toggle.

Definition step (c : Props * State) (e : Event)
    : (Props * State) * list Call :=
  let '(p, st) := c in
  match e with
  | Rerender p' => ((p', st), [])
  | Edit newValue =>
      let '(st', calls) := handleChange p newValue st in ((p, st'), calls)
  | Clear =>
      let '(st', calls) := handleClear p st in ((p, st'), calls)
  | Toggle =>
      let '(st', calls) := togglePasswordVisibility st in ((p, st'), calls)
  end.

Fixpoint run (c : Props * State) (es : list Event) : Props * State :=
  match es with
  | [] => c
  | e :: rest => run (step c e).1 rest
  end.

(** *** The class-name helper (lines 6-7) *)

(** [Array.prototype.join] on strings. *)
Fixpoint join (separator : string) (l : list string) : string :=
  match l with
  | [] => EmptyString
  | x :: rest =>
      match rest with
      | [] => x
      | _ :: _ => x +:+ separator +:+ join separator rest
      end
  end.

(** An argument of [cn] is a string, or one of [false], [null] and
    [undefined], which are [None].  [filter(Boolean)] keeps the strings
    that are not empty. *)
Definition kept_class (c : option string) : option string :=
  match c with
  | Some s => if truthy s then Some s else None
  | None => None
  end.

Definition cn (classes : list (option string)) : string :=
  join " " (omap kept_class classes).

(** *** Label and description (lines 47, 156-160, 177-179, 229-233) *)

(** The props that decide them.  [own_describedby] is the
    [aria-describedby] the owner may pass among the attributes that are
    spread on the input after the component's own (line 180): [None] when
    the owner passes none, [Some None] when it passes [undefined]. *)
Record TextProps : Type := {
  id : option string;
  label : option string;
  helperText : option string;
  errorMessage : option string;
  own_describedby : option (option string)
}.

(** [a || b] on optional strings. *)
Definition or_else (a b : option string) : option string :=
  match kept_class a with
  | Some _ => a
  | None => b
  end.

(** The truthiness of an optional string. *)
Definition is_kept (a : option string) : bool :=
  match kept_class a with
  | Some _ => true
  | None => false
  end.

(** [id || `input-${...}`]: the generated identifier, drawn anew at each
    render, is the argument [generated]. *)
Definition inputId (t : TextProps) (generated : string) : string :=
  default generated (or_else (id t) (Some generated)).

Record Label : Type := {
  htmlFor : string;
  label_text : string
}.

Record Description : Type := {
  description_id : string;
  description_text : string
}.

(** What one render shows around the input. *)
Record TextView : Type := {
  rendered_label : option Label;
  input_id : string;
  aria_describedby : option string;
  rendered_description : option Description
}.

Definition render_text (t : TextProps) (generated : string) : TextView :=
  let i := inputId t generated in
  {| rendered_label :=
       match kept_class (label t) with
       | Some l => Some {| htmlFor := i; label_text := l |}
       | None => None
       end;
     input_id := i;
     aria_describedby :=
       match own_describedby t with
       | Some own => own
       | None =>
           if is_kept (or_else (helperText t) (errorMessage t))
           then Some (i +:+ "-description")
           else None
       end;
     rendered_description :=
       if is_kept (or_else (helperText t) (errorMessage t))
       then Some {| description_id := i +:+ "-description";
                    description_text :=
                      default EmptyString
                        (or_else (errorMessage t) (helperText t)) |}
       else None |}.

(** *** Notions the further properties are stated with *)

(** The number of toggle activations among the events. *)
Definition toggles (es : list Event) : nat :=
  length (List.filter (λ e, match e with Toggle => true | _ => false end) es).

(** The text the last edit or clear among the events wrote. *)
Definition last_write (es : list Event) : option string :=
  foldl (λ written e,
           match e with
           | Edit newValue => Some newValue
           | Clear => Some EmptyString
           | _ => written
           end) None es.

(** The calls made to the owner's [onChange] while the events happen. *)
Fixpoint reported (c : Props * State) (es : list Event) : list Call :=
  match es with
  | [] => []
  | e :: rest => (step c e).2 ++ reported (step c e).1 rest
  end.

(** The calls that report the texts the events write, in their order. *)
Definition writes (es : list Event) : list Call :=
  omap (λ e, match e with
             | Edit newValue => Some (Change newValue)
             | Clear => Some (Change EmptyString)
             | _ => None
             end) es.

(** The props of the last render among the events. *)
Definition last_props (es : list Event) : option Props :=
  foldl (λ props e,
           match e with
           | Rerender p' => Some p'
           | _ => props
           end) None es.

End InputField.

(** ** A collation to run the components with

    Ordering by code units: it is one [LocaleCompare], used to evaluate the
    components on concrete tables. *)

Module CodeUnits.

Fixpoint compare (a b : string) : Z :=
  match a, b with
  | EmptyString, EmptyString => 0
  | EmptyString, String _ _ => -1
  | String _ _, EmptyString => 1
  | String x a', String y b' =>
      let d := Z.of_N (Ascii.N_of_ascii x) - Z.of_N (Ascii.N_of_ascii y) in
      if d =? 0 then compare a' b' else d
  end.

Definition collation : JS.LocaleCompare.
Proof.
  refine {| JS.localeCompare := compare |}.
  - intros a. induction a as [|x a IH]; intros [|y b]; simpl; try reflexivity.
    repeat case_match; rewrite ?Z.eqb_eq, ?Z.eqb_neq in *; try lia.
    apply IH.
  - intros a. induction a as [|x a IH]; intros [|y b] [|z c]; simpl; try lia.
    repeat case_match; rewrite ?Z.eqb_eq, ?Z.eqb_neq in *; try lia.
    apply IH.
Defined.

End CodeUnits.

(** ** Example tables *)

Module Examples.
Import JS DataTable.

Definition nameColumn : Column :=
  {| key := "name"; title := "Name"; dataIndex := "name";
     sortable := true; render := None |}.

Definition table (rows : list Record) (cols : list Column) : Props :=
  {| data := rows; columns := cols; loading := false; selectable := true;
     onRowSelect := true; emptyMessage := None; rowKey := None;
     onRowClick := true |}.

Definition bob : Record := {[ "id" := VNumber 1; "name" := VString "Bob" ]}.
Definition ann : Record := {[ "id" := VNumber 2; "name" := VString "Ann" ]}.

(** The table of the specification's example. *)
Definition people : Props := table [bob; ann] [nameColumn].

(** A record without a name. *)
Definition anonymous : Record := {[ "id" := VNumber 3; "name" := VNull ]}.
Definition guests : Props := table [anonymous; bob; ann] [nameColumn].

(** Two records with the same [id]. *)
Definition twin : Record := {[ "id" := VNumber 1; "name" := VString "Ann" ]}.
Definition twins : Props := table [bob; twin] [nameColumn].


(** A sortable column whose key is the empty string. *)
Definition unnamedColumn : Column :=
  {| key := EmptyString; title := "Name"; dataIndex := "name";
     sortable := true; render := None |}.
Definition unkeyed : Props := table [bob; ann] [unnamedColumn].

(** The same column over records of which the first has no name. *)
Definition unkeyed_guests : Props :=
  table [anonymous; bob; ann] [unnamedColumn].

(** A click on a cell, and a click on the checkbox in a cell. *)
Definition td : Element := {| tagName := "td"; type_attribute := None |}.
Definition tr : Element := {| tagName := "tr"; type_attribute := None |}.
Definition checkbox : Element :=
  {| tagName := "input"; type_attribute := Some "checkbox" |}.

Section with_code_units.
#[local] Existing Instance CodeUnits.collation.


End with_code_units.

End Examples.

Module FieldExamples.
Import InputField.

Definition field (v : option string) : Props :=
  {| value := v; onChange := true; disabled := false;
     showClearButton := true; type := None; loading := false |}.

(** The field of the story "With Clear Button": the owner passes a fixed
    text and no [onChange]. *)
Definition clearMe : Props :=
  {| value := Some "Clear me!"; onChange := false; disabled := false;
     showClearButton := true; type := None; loading := false |}.

(** That field after its clear button was activated. *)
Definition cleared : Props * State :=
  run (clearMe, mount clearMe) [Clear].

(** A controlled field that the owner first renders with the text "abc"
    and then, on its own, with the empty text. *)
Definition emptied : Props * State :=
  run (field (Some "abc"), mount (field (Some "abc")))
      [Rerender (field (Some EmptyString))].

(** A controlled field that the owner first renders empty and then, on its
    own, with the text "x". *)
Definition filled : Props * State :=
  run (field (Some EmptyString), mount (field (Some EmptyString)))
      [Rerender (field (Some "x"))].

Definition passwordField : Props :=
  {| value := Some "password123"; onChange := false; disabled := false;
     showClearButton := false; type := Some password; loading := false |}.

End FieldExamples.

(** ** App.tsx: the demo application that owns a table *)

Module App.
Import JS.

(** [s.startsWith(t)] and [s.includes(t)] *)
Fixpoint startsWith (s t : string) : bool :=
  match t, s with
  | EmptyString, _ => true
  | String _ _, EmptyString => false
  | String c t', String d s' => bool_decide (c = d) && startsWith s' t'
  end.

Fixpoint includes (s t : string) : bool :=
  startsWith s t
  || match s with
     | EmptyString => false
     | String _ s' => includes s' t
     end.

(** [String.prototype.toLowerCase] is the host's; what is used of it is
    that it maps the empty string to itself. *)
Class LowerCase := {
  toLowerCase : string → string;
  toLowerCase_empty : toLowerCase EmptyString = EmptyString
}.

Inductive Status : Type := active | inactive | pending.

#[export] Instance Status_eq_dec : EqDecision Status.
Proof. solve_decision. Defined.

(** The value of the status filter: ['all'] or one status. *)
Inductive FilterStatus : Type := all | only (s : Status).

#[export] Instance FilterStatus_eq_dec : EqDecision FilterStatus.
Proof. solve_decision. Defined.

(** [interface User], as far as [App] itself reads it; [row] is the object
    as the table gets it. *)
Record User : Type := {
  name : string;
  email : string;
  department : string;
  status : Status;
  row : Record
}.

(** The state cells of [App] that reach the table. *)
Record State : Type := {
  searchTerm : string;
  filterStatus : FilterStatus;
  isLoading : bool
}.

Section with_lower_case.
Context `{LowerCase}.

(** The callback of the filter (lines 124-130). *)
Definition matches (st : State) (user : User) : bool :=
  let matchesSearch :=
    includes (toLowerCase (name user)) (toLowerCase (searchTerm st))
    || includes (toLowerCase (email user)) (toLowerCase (searchTerm st))
    || includes (toLowerCase (department user)) (toLowerCase (searchTerm st)) in
  let matchesStatus :=
    match filterStatus st with
    | all => true
    | only s => bool_decide (status user = s)
    end in
  matchesSearch && matchesStatus.

Definition filteredUsers (sampleUsers : list User) (st : State) : list User :=
  List.filter (matches st) sampleUsers.

(** The [emptyMessage] passed to the table. *)
Definition emptyMessage (st : State) : string :=
  if InputField.truthy (searchTerm st)
     || negb (bool_decide (filterStatus st = all))
  then "No users found matching your criteria"
  else "No users available".

(** The props [App] renders its table with. *)
Definition table (sampleUsers : list User) (cols : list DataTable.Column)
    (st : State) : DataTable.Props :=
  {| DataTable.data := row <$> filteredUsers sampleUsers st;
     DataTable.columns := cols;
     DataTable.loading := isLoading st;
     DataTable.selectable := true;
     DataTable.onRowSelect := true;
     DataTable.emptyMessage := Some (emptyMessage st);
     DataTable.rowKey := None;
     DataTable.onRowClick := true |}.

End with_lower_case.

(** Lower case of the letters A to Z, one [LowerCase]. *)
Definition ascii_lower (c : Ascii.ascii) : Ascii.ascii :=
  let n := Ascii.nat_of_ascii c in
  if bool_decide (65 ≤ n ≤ 90)%nat then Ascii.ascii_of_nat (n + 32) else c.

Fixpoint ascii_toLowerCase (s : string) : string :=
  match s with
  | EmptyString => EmptyString
  | String c s' => String (ascii_lower c) (ascii_toLowerCase s')
  end.

Definition ascii_case : LowerCase :=
  {| toLowerCase := ascii_toLowerCase; toLowerCase_empty := eq_refl |}.

End App.

Module MoreExamples.
Import JS DataTable.

Definition ageColumn : Column :=
  {| key := "age"; title := "Age"; dataIndex := "age";
     sortable := true; render := None |}.

Definition emailColumn : Column :=
  {| key := "email"; title := "Email"; dataIndex := "email";
     sortable := false; render := None |}.

Definition john : Record :=
  {[ "id" := VNumber 1; "name" := VString "John Doe"; "age" := VNumber 30 ]}.
Definition jane : Record :=
  {[ "id" := VNumber 2; "name" := VString "Jane Smith"; "age" := VNumber 25 ]}.
Definition robert : Record :=
  {[ "id" := VNumber 3; "name" := VString "Bob Johnson"; "age" := VNumber 35 ]}.

(** The table of the component's tests, with an unsortable column added. *)
Definition testUsers : Props :=
  Examples.table [john; jane; robert]
    [Examples.nameColumn; emailColumn; ageColumn].

(** A record without an age, and a table that holds it. *)
Definition ageless : Record :=
  {[ "id" := VNumber 4; "name" := VString "Zed" ]}.
Definition roster : Props :=
  Examples.table [john; ageless; jane] [Examples.nameColumn; ageColumn].

(** A user of the demo application. *)
Definition diana : App.User :=
  {| App.name := "Diana Prince"; App.email := "diana.prince@company.com";
     App.department := "Human Resources"; App.status := App.active;
     App.row := {[ "id" := VNumber 6; "name" := VString "Diana Prince" ]} |}.

End MoreExamples.

(** * Properties *)


(** ** Facts about the runtime functions *)

Section array_facts.
Import JS.
Context {A : Type}.
Implicit Types (l : list A) (comparefn : A → A → Z).

Lemma find_None (p : A → bool) l :
  find p l = None ↔ ∀ x, x ∈ l → p x = false.
Proof.
  induction l as [|x l IH]; simpl.
  - split; [intros _ y Hy; inversion Hy | done].
  - destruct (p x) eqn:Hx.
    + split; [done | intros Hall; specialize (Hall x); rewrite Hx in Hall].
      discriminate Hall. left.
    + rewrite IH. split.
      * intros Hall y Hy. apply elem_of_cons in Hy as [-> | Hy]; auto.
      * intros Hall y Hy. apply Hall. by right.
Qed.

Lemma lookup_map {B} (f : A → nat → B) l i :
  map f l !! i = (λ x, f x i) <$> l !! i.
Proof. unfold map. by rewrite list_lookup_imap. Qed.

Lemma length_map {B} (f : A → nat → B) l : length (map f l) = length l.
Proof. unfold map. by rewrite length_imap. Qed.

Lemma place_Permutation comparefn pivot l :
  place comparefn pivot l ≡ₚ pivot :: l.
Proof.
  induction l as [|e l IH]; simpl; [done |].
  case_match; [done |]. rewrite IH. apply Permutation_swap.
Qed.

Lemma sort_from_Permutation comparefn l sorted :
  foldl (λ sorted pivot, place comparefn pivot sorted) sorted l ≡ₚ sorted ++ l.
Proof.
  revert sorted. induction l as [|x l IH]; intros sorted; simpl.
  - by rewrite app_nil_r.
  - rewrite IH, place_Permutation. simpl. apply Permutation_middle.
Qed.

Lemma sort_Permutation comparefn l : sort comparefn l ≡ₚ l.
Proof. unfold sort. by rewrite sort_from_Permutation. Qed.

End array_facts.

(** What [sort] guarantees for a comparator that sends one class of
    elements behind all others, whatever it answers inside the class. *)
Section sort_last_block.
Import JS.
Context {A : Type} (comparefn : A → A → Z) (late : A → bool).
Hypothesis late_pivot : ∀ a b, late a = true → 0 ≤ comparefn a b.
Hypothesis early_pivot :
  ∀ a b, late a = false → late b = true → comparefn a b < 0.

Lemma place_late pivot l :
  late pivot = true → place comparefn pivot l = l ++ [pivot].
Proof.
  intros Hp. induction l as [|e l IH]; simpl; [done |].
  pose proof (late_pivot pivot e Hp).
  destruct (Z.ltb_spec (comparefn pivot e) 0); [lia | by rewrite IH].
Qed.

Lemma place_early pivot front back :
  late pivot = false → Forall (λ x, late x = true) back →
  place comparefn pivot (front ++ back) = place comparefn pivot front ++ back.
Proof.
  intros Hp Hback. induction front as [|e front IH]; simpl.
  - destruct Hback as [|e back He _]; simpl; [done |].
    pose proof (early_pivot pivot e Hp He).
    by destruct (Z.ltb_spec (comparefn pivot e) 0); [| lia].
  - case_match; [done | by rewrite IH].
Qed.

Lemma place_late_last pivot l :
  late_last late l → late_last late (place comparefn pivot l).
Proof.
  intros (front & back & -> & Hfront & Hback).
  destruct (late pivot) eqn:Hp.
  - exists front, (back ++ [pivot]). rewrite place_late by done.
    rewrite app_assoc. split_and!; [done | done |].
    apply Forall_app. by split; [| apply Forall_singleton].
  - exists (place comparefn pivot front), back.
    rewrite place_early by done. split_and!; [done | | done].
    rewrite place_Permutation. by constructor.
Qed.

Lemma sort_late_last l : late_last late (sort comparefn l).
Proof.
  unfold sort.
  assert (late_last late []) as Hnil by (by exists [], []).
  revert Hnil. generalize (@nil A) as sorted.
  induction l as [|x l IH]; intros sorted Hs; simpl; [done |].
  by apply IH, place_late_last.
Qed.

Lemma late_last_lookup l i j a b :
  late_last late l → l !! i = Some a → l !! j = Some b →
  late a = true → late b = false → (j < i)%nat.
Proof.
  intros (front & back & -> & Hfront & Hback) Hi Hj Ha Hb.
  assert (length front ≤ i)%nat as Hge.
  { destruct (decide (i < length front)%nat) as [Hlt|]; [| lia].
    rewrite lookup_app_l in Hi by done.
    rewrite Forall_lookup in Hfront. specialize (Hfront _ _ Hi). congruence. }
  destruct (decide (j < length front)%nat) as [|Hnlt]; [lia |].
  rewrite lookup_app_r in Hj by lia.
  rewrite Forall_lookup in Hback. specialize (Hback _ _ Hj). congruence.
Qed.

End sort_last_block.

(** What [sort] guarantees for a comparator that is consistent on the
    elements it is given: the result is ordered by it. *)
Section sort_sorted.
Import JS.
Context {A : Type} (comparefn : A → A → Z) (Q : A → Prop).
Hypothesis comparefn_swap :
  ∀ a b, Q a → Q b → 0 ≤ comparefn a b → comparefn b a ≤ 0.
Hypothesis comparefn_trans :
  ∀ a b c, Q a → Q b → Q c →
    comparefn a b ≤ 0 → comparefn b c ≤ 0 → comparefn a c ≤ 0.

Lemma place_sorted pivot l :
  Q pivot → Forall Q l →
  StronglySorted (not_after comparefn) l →
  StronglySorted (not_after comparefn) (place comparefn pivot l).
Proof.
  intros Hp HQ Hs. induction l as [|e l IH]; simpl.
  - by repeat constructor.
  - apply Forall_cons in HQ as [He HQ].
    apply StronglySorted_inv in Hs as [Hs Hle].
    destruct (Z.ltb_spec (comparefn pivot e) 0) as [Hlt | Hge].
    + constructor; [by constructor |].
      constructor; [unfold not_after; lia |].
      rewrite Forall_forall in Hle, HQ |- *. intros y Hy.
      apply (comparefn_trans pivot e y);
        [done | done | by apply HQ | lia | by apply Hle].
    + constructor; [by apply IH |].
      rewrite place_Permutation. constructor; [| done].
      by apply comparefn_swap.
Qed.

Lemma sort_sorted l :
  Forall Q l → StronglySorted (not_after comparefn) (sort comparefn l).
Proof.
  unfold sort. intros HQ.
  assert (StronglySorted (not_after comparefn) [] ∧ Forall Q []) as Hnil
    by (split; constructor).
  revert Hnil. generalize (@nil A) as sorted.
  induction HQ as [|x l Hx HQ IH]; intros sorted [Hs HQs]; simpl; [done |].
  apply IH. split; [by apply place_sorted |].
  rewrite place_Permutation. by constructor.
Qed.

End sort_sorted.

(** ** The table: sorting *)

Section table_sorting.
Import JS DataTable.
Context `{LocaleCompare}.

Lemma sortedData_Permutation p st : sortedData p st ≡ₚ data p.
Proof.
  unfold sortedData. destruct (active_column _ _) as [[column dir]|]; [| done].
  apply sort_Permutation.
Qed.

Lemma length_sortedData p st : length (sortedData p st) = length (data p).
Proof. by rewrite sortedData_Permutation. Qed.

Lemma sortedData_no_direction p st :
  SortState.direction (sortState st) = None → sortedData p st = data p.
Proof.
  intros Hd. unfold sortedData, active_column. rewrite Hd.
  by destruct (SortState.key _).
Qed.

(** With distinct column keys, [find] gives the column itself. *)
Lemma find_column_NoDup cols column :
  NoDup (key <$> cols) → column ∈ cols →
  find_column cols (key column) = Some column.
Proof.
  unfold find_column. induction cols as [|c cols IH]; simpl.
  - intros _ Hin. inversion Hin.
  - intros Hnd Hin. apply NoDup_cons in Hnd as [Hc Hnd].
    case_bool_decide as Hk.
    + apply elem_of_cons in Hin as [-> | Hin]; [done |].
      exfalso. apply Hc. rewrite Hk. by apply list_elem_of_fmap_2.
    + apply elem_of_cons in Hin as [-> | Hin]; [done | by apply IH].
Qed.

(** The sort cycle of a column that [handleSort] finds sortable. *)
Lemma handleSort_cycle p column sel :
  find_column (columns p) (key column) = Some column →
  sortable column = true →
  let st0 := {| selectedRows := sel; sortState := sortState initial |} in
  let st1 := handleSort p (key column) st0 in
  let st2 := handleSort p (key column) st1 in
  let st3 := handleSort p (key column) st2 in
  sortState st1
    = {| SortState.key := Some (key column); SortState.direction := Some asc |}
  ∧ sortState st2
    = {| SortState.key := Some (key column); SortState.direction := Some desc |}
  ∧ st3 = st0.
Proof.
  intros Hfind Hsortable. unfold handleSort. rewrite Hfind, Hsortable.
  unfold next_sortState; simpl.
  repeat (rewrite bool_decide_eq_true_2 by done; simpl). done.
Qed.

Lemma handleSort_thrice p columnKey st :
  sortState st = sortState initial →
  handleSort p columnKey (handleSort p columnKey (handleSort p columnKey st))
  = st.
Proof.
  intros Hs. destruct st as [sel s]; simpl in Hs; subst s.
  unfold handleSort. destruct (find_column _ _) as [column|]; [| done].
  destruct (sortable column); [| done].
  unfold next_sortState; simpl.
  repeat (rewrite bool_decide_eq_true_2 by done; simpl). done.
Qed.

(** C1: From the no-sort state, three activations of a sortable column put
    the sort state back to none with the selection as it was, and the rows
    shown are then the input sequence; with distinct column keys the states
    in between are ascending and descending on that column; in any state
    without a direction the rows shown are the input sequence itself. *)
Theorem C1_three_activations_restore_order p column sel :
  column ∈ columns p → sortable column = true →
  let st0 := {| selectedRows := sel; sortState := sortState initial |} in
  let st1 := handleSort p (key column) st0 in
  let st2 := handleSort p (key column) st1 in
  let st3 := handleSort p (key column) st2 in
  sortState st3
    = {| SortState.key := None; SortState.direction := None |}
  ∧ selectedRows st3 = sel
  ∧ sortedData p st3 = data p
  ∧ (NoDup (key <$> columns p) →
     sortState st1
       = {| SortState.key := Some (key column);
            SortState.direction := Some asc |}
     ∧ sortState st2
       = {| SortState.key := Some (key column);
            SortState.direction := Some desc |})
  ∧ (∀ st, SortState.direction (sortState st) = None →
           sortedData p st = data p).
Proof.
  intros Hin Hsortable st0 st1 st2 st3. subst st1 st2 st3.
  rewrite handleSort_thrice by done.
  split_and!; [done | done | by apply sortedData_no_direction | |].
  - intros Hnd. pose proof (find_column_NoDup _ _ Hnd Hin) as Hfind.
    destruct (handleSort_cycle p column sel Hfind Hsortable) as (H1 & H2 & _).
    by split.
  - apply sortedData_no_direction.
Qed.

(** X20: For every column and direction that the guards of [sortedData]
    let through (a key that is not the empty string, a direction, a column
    with that key), a row whose value in that column is null or missing
    stands after every row whose value is not, in direction [asc] as in
    direction [desc]. *)
Theorem X20_null_rows_sort_last p st column dir i j a b :
  active_column (columns p) (sortState st) = Some (column, dir) →
  sortedData p st !! i = Some a →
  sortedData p st !! j = Some b →
  nullish (get a (dataIndex column)) = true →
  nullish (get b (dataIndex column)) = false →
  (j < i)%nat.
Proof.
  unfold sortedData. intros ->.
  apply (late_last_lookup (λ r, nullish (get r (dataIndex column)))).
  apply sort_late_last.
  - intros x y Hx. unfold compare_rows. by rewrite Hx.
  - intros x y Hx Hy. unfold compare_rows. by rewrite Hx, Hy.
Qed.

(** The comparator on two rows that hold strings in the column. *)
Lemma compare_rows_strings column dir a b x y :
  get a (dataIndex column) = VString x →
  get b (dataIndex column) = VString y →
  compare_rows column dir a b
  = match dir with
    | asc => localeCompare x y
    | desc => - localeCompare x y
    end.
Proof. intros Ha Hb. unfold compare_rows. by rewrite Ha, Hb. Qed.

Lemma compare_rows_desc_reverses_asc column a b :
  nullish (get a (dataIndex column)) = false →
  nullish (get b (dataIndex column)) = false →
  compare_rows column desc a b = - compare_rows column asc a b.
Proof.
  intros Ha Hb. unfold compare_rows. rewrite Ha, Hb.
  by repeat case_match.
Qed.

End table_sorting.

Section strongly_sorted.
Context {A : Type} (R : A → A → Prop).

Lemma StronglySorted_lookup l i j a b :
  StronglySorted R l → (i < j)%nat →
  l !! i = Some a → l !! j = Some b → R a b.
Proof.
  intros Hs. revert i j. induction Hs as [|x l Hs IH Hx]; intros i j Hij Hi Hj.
  - by rewrite lookup_nil in Hi.
  - destruct j as [|j]; [lia |]. simpl in Hj. destruct i as [|i]; simpl in Hi.
    + injection Hi as ->. rewrite Forall_lookup in Hx. by apply (Hx j).
    + apply (IH i j); [lia | done | done].
Qed.

End strongly_sorted.

Section string_columns.
Import JS DataTable.
Context `{LocaleCompare}.

(** The rows a string column is sorted into: ascending by the locale in
    direction [asc], descending in direction [desc]. *)
Lemma sort_strings_ordered column dir (l : list Record) i j a b :
  (∀ r, r ∈ l → ∃ s, get r (dataIndex column) = VString s) →
  (i < j)%nat →
  sort (compare_rows column dir) l !! i = Some a →
  sort (compare_rows column dir) l !! j = Some b →
  ∃ x y, get a (dataIndex column) = VString x
    ∧ get b (dataIndex column) = VString y
    ∧ match dir with
      | asc => localeCompare x y ≤ 0
      | desc => 0 ≤ localeCompare x y
      end.
Proof.
  intros Hstr Hij Hi Hj.
  set (Q := λ r : Record, ∃ s, get r (dataIndex column) = VString s).
  assert (Forall Q l) as HQ by (by apply Forall_forall).
  assert (Q a ∧ Q b) as [[x Hx] [y Hy]].
  { rewrite <- (sort_Permutation (compare_rows column dir)) in HQ.
    rewrite Forall_lookup in HQ. split; eapply HQ; eauto. }
  exists x, y. split_and!; [done | done |].
  assert (compare_rows column dir a b ≤ 0) as Hle.
  { apply (StronglySorted_lookup (not_after (compare_rows column dir))
             (sort (compare_rows column dir) l) i j); [| done | done | done].
    apply (sort_sorted _ Q); [| | done].
    - intros r1 r2 [s1 H1] [s2 H2].
      rewrite (compare_rows_strings _ _ _ _ _ _ H1 H2).
      rewrite (compare_rows_strings _ _ _ _ _ _ H2 H1).
      pose proof (localeCompare_swap s1 s2). destruct dir; lia.
    - intros r1 r2 r3 [s1 H1] [s2 H2] [s3 H3].
      rewrite (compare_rows_strings _ _ _ _ _ _ H1 H2).
      rewrite (compare_rows_strings _ _ _ _ _ _ H2 H3).
      rewrite (compare_rows_strings _ _ _ _ _ _ H1 H3).
      destruct dir; [apply localeCompare_trans |].
      intros H12 H23.
      pose proof (localeCompare_swap s1 s2).
      pose proof (localeCompare_swap s2 s3).
      pose proof (localeCompare_swap s1 s3).
      pose proof (localeCompare_trans s3 s2 s1). lia. }
  rewrite (compare_rows_strings _ _ _ _ _ _ Hx Hy) in Hle.
  destruct dir; lia.
Qed.

(** For a column whose key is not the empty string, the first activation
    sorts a string column ascending and the second descending. *)
Lemma string_column_activations p column sel :
  NoDup (key <$> columns p) →
  column ∈ columns p → sortable column = true →
  key column ≠ EmptyString →
  (∀ r, r ∈ data p → ∃ s, get r (dataIndex column) = VString s) →
  let st0 := {| selectedRows := sel; sortState := sortState initial |} in
  let st1 := handleSort p (key column) st0 in
  let st2 := handleSort p (key column) st1 in
  sortedData p st1 = sort (compare_rows column asc) (data p)
  ∧ sortedData p st2 = sort (compare_rows column desc) (data p).
Proof.
  intros Hnd Hin Hsortable Hkey Hstr st0 st1 st2.
  pose proof (find_column_NoDup _ _ Hnd Hin) as Hfind.
  destruct (handleSort_cycle p column sel Hfind Hsortable) as (H1 & H2 & _).
  fold st0 st1 st2 in H1, H2. unfold sortedData, active_column.
  rewrite H1, H2. simpl. rewrite bool_decide_eq_false_2 by done.
  by rewrite Hfind.
Qed.

(** Together: on a string column with a key other than the empty string,
    the rows after the first activation are the input rows in ascending
    locale order, and after the second in descending locale order. *)
Lemma string_column_ascending_then_descending p column sel :
  NoDup (key <$> columns p) →
  column ∈ columns p → sortable column = true →
  key column ≠ EmptyString →
  (∀ r, r ∈ data p → ∃ s, get r (dataIndex column) = VString s) →
  let st0 := {| selectedRows := sel; sortState := sortState initial |} in
  let st1 := handleSort p (key column) st0 in
  let st2 := handleSort p (key column) st1 in
  sortedData p st1 ≡ₚ data p
  ∧ sortedData p st2 ≡ₚ data p
  ∧ ∀ i j, (i < j)%nat →
      (∀ a b, sortedData p st1 !! i = Some a → sortedData p st1 !! j = Some b →
         ∃ x y, get a (dataIndex column) = VString x
           ∧ get b (dataIndex column) = VString y
           ∧ localeCompare x y ≤ 0)
      ∧ (∀ a b, sortedData p st2 !! i = Some a → sortedData p st2 !! j = Some b →
         ∃ x y, get a (dataIndex column) = VString x
           ∧ get b (dataIndex column) = VString y
           ∧ 0 ≤ localeCompare x y).
Proof.
  intros Hnd Hin Hsortable Hkey Hstr st0 st1 st2.
  destruct (string_column_activations p column sel Hnd Hin Hsortable Hkey Hstr)
    as [H1 H2].
  fold st0 st1 st2 in H1, H2.
  split_and!; [apply sortedData_Permutation | apply sortedData_Permutation |].
  intros i j Hij. rewrite H1, H2. split; intros a b Ha Hb.
  - apply (sort_strings_ordered column asc (data p) i j a b); done.
  - apply (sort_strings_ordered column desc (data p) i j a b); done.
Qed.

End string_columns.

(** ** The table: what is rendered *)

Section table_rendering.
Import JS DataTable.
Context `{LocaleCompare}.

Lemma render_view_table p st :
  loading p = false → data p ≠ [] →
  render_view p st
  = TableView
      (if selectable p
       then Some {| checked :=
                      bool_decide (size (selectedRows st)
                                   = length (sortedData p st))
                      && bool_decide (0 < length (sortedData p st))%nat;
                    onChange := handleSelectAll p st |}
       else None)
      (render_header p st <$> columns p)
      (map (render_row p st) (sortedData p st)).
Proof.
  intros Hl Hd. unfold render_view. rewrite Hl.
  rewrite bool_decide_eq_false_2; [done |].
  by destruct (data p).
Qed.

(** C9: The table renders one of three views: the busy placeholder whenever
    [loading] is set, whatever the data; otherwise the empty message (by
    default "No data available") when there are no records; otherwise the
    table, with one body row per record. *)
Theorem C9_presentation_states p st :
  (loading p = true → render_view p st = LoadingView)
  ∧ (loading p = false → data p = [] →
     render_view p st = EmptyView (default "No data available" (emptyMessage p))
     ∧ (emptyMessage p = None →
        render_view p st = EmptyView "No data available"))
  ∧ (loading p = false → data p ≠ [] →
     ∃ select_all header body,
       render_view p st = TableView select_all header body
       ∧ body = map (render_row p st) (sortedData p st)
       ∧ length body = length (data p)).
Proof.
  split_and!.
  - intros Hl. unfold render_view. by rewrite Hl.
  - intros Hl Hd. unfold render_view. rewrite Hl, Hd. simpl.
    split; [done | by intros ->].
  - intros Hl Hd. rewrite render_view_table by done.
    eexists _, _, _. split_and!; [done | done |].
    by rewrite length_map, length_sortedData.
Qed.

Lemma closest_checkbox_None target :
  closest_checkbox target = None
  ↔ ∀ e, e ∈ target → is_checkbox_input e = false.
Proof. apply find_None. Qed.

(** C8: On a rendered row, a click whose target is a checkbox input or lies
    inside one calls nothing; a click with no checkbox input on its path
    calls [onRowClick], when the owner passed it, once with the record of
    that row and its index in the sorted rows. *)
Theorem C8_row_click p st select_all header body i row target :
  render_view p st = TableView select_all header body →
  body !! i = Some row →
  ∃ record,
    sortedData p st !! i = Some record
    ∧ ((∃ e, e ∈ target ∧ is_checkbox_input e = true) →
       row_onClick row target = [])
    ∧ ((∀ e, e ∈ target → is_checkbox_input e = false) →
       onRowClick p = true →
       row_onClick row target = [RowClick record i]).
Proof.
  unfold render_view. destruct (loading p); [done |].
  case_bool_decide; [done |]. intros [= _ _ <-] Hrow.
  rewrite lookup_map in Hrow.
  destruct (sortedData p st !! i) as [record|] eqn:Hrecord; [| done].
  injection Hrow as <-. exists record. split_and!; [done | |]; simpl.
  - intros (e & He & Hbox). unfold handleRowClick.
    destruct (closest_checkbox target) eqn:Hc; [done |].
    rewrite closest_checkbox_None in Hc. rewrite (Hc e He) in Hbox. done.
  - intros Hnone Hcb. unfold handleRowClick.
    apply closest_checkbox_None in Hnone. by rewrite Hnone, Hcb.
Qed.

End table_rendering.

(** ** The table: the owner's array *)

Section owner_array.
Import JS DataTable.
Context `{LocaleCompare}.
Implicit Types (h : Heap Record) (a : ref).

Lemma spread_spec h a l :
  h !! a = Some l →
  ∃ copy, spread a h = Some (copy, <[copy := l]> h) ∧ h !! copy = None.
Proof.
  intros Ha. exists (fresh (dom h)). unfold spread, elements, new_array.
  unfold mbind, Cmd_bind. rewrite Ha. split; [done |].
  apply not_elem_of_dom, is_fresh.
Qed.

Lemma sort_in_place_spec (comparefn : Record → Record → Z) h a l :
  h !! a = Some l →
  sort_in_place comparefn a h = Some (a, <[a := sort comparefn l]> h).
Proof.
  intros Ha. unfold sort_in_place, elements, store.
  unfold mbind, Cmd_bind, mret, Cmd_ret. by rewrite Ha, Ha.
Qed.

(** One computation of the sorted rows. *)
Lemma sortedData_cmd_spec p st h (dataRef : ref) :
  h !! dataRef = Some (data p) →
  ∃ rows h',
    sortedData_cmd (columns p) (sortState st) dataRef h = Some (rows, h')
    ∧ h' !! dataRef = Some (data p)
    ∧ (∀ a l, h !! a = Some l → h' !! a = Some l)
    ∧ h' !! rows = Some (sortedData p st)
    ∧ (h !! rows = None
       ↔ is_Some (active_column (columns p) (sortState st))).
Proof.
  intros Hdata. unfold sortedData_cmd, sortedData.
  destruct (active_column _ _) as [[column dir]|].
  - destruct (spread_spec h dataRef _ Hdata) as (copy & Hspread & Hfresh).
    exists copy, (<[copy := sort (compare_rows column dir) (data p)]> h).
    assert (copy ≠ dataRef) as Hne by congruence.
    split_and!.
    + unfold mbind, Cmd_bind. rewrite Hspread.
      rewrite (sort_in_place_spec _ _ _ (data p)) by apply lookup_insert_eq.
      by rewrite insert_insert_eq.
    + by rewrite lookup_insert_ne.
    + intros a l Ha. rewrite lookup_insert_ne; [done | congruence].
    + apply lookup_insert_eq.
    + split; [by eexists | done].
  - exists dataRef, h. split_and!; [done | done | done | done |].
    split; [congruence | by intros [? ?]].
Qed.

(** The renders after any sequence of activations. *)
Lemma activations_cmd_spec p columnKeys st h (dataRef : ref) :
  h !! dataRef = Some (data p) →
  ∃ st' h',
    activations_cmd p dataRef columnKeys st h = Some (st', h')
    ∧ st' = foldl (λ s columnKey, handleSort p columnKey s) st columnKeys
    ∧ h' !! dataRef = Some (data p)
    ∧ (∀ a l, h !! a = Some l → h' !! a = Some l).
Proof.
  revert st h. induction columnKeys as [|columnKey rest IH]; intros st h Hdata.
  - by exists st, h.
  - simpl.
    destruct (sortedData_cmd_spec p (handleSort p columnKey st) h dataRef Hdata)
      as (rows & h1 & Hrun & Hdata1 & Hframe1 & _).
    destruct (IH (handleSort p columnKey st) h1 Hdata1)
      as (st' & h' & Hrest & Hst' & Hdata' & Hframe').
    exists st', h'. unfold mbind, Cmd_bind. rewrite Hrun.
    split_and!; [done | done | done |].
    intros a l Ha. by apply Hframe', Hframe1.
Qed.

(** C10: Computing the sorted rows leaves the owner's array as it was, in
    every sort state and so after every activation: the computation ends,
    the array behind [data] and every other array of the heap hold the
    elements they held, and when a column is sorted the rows are in an array
    that did not exist before. *)
Theorem C10_sorting_keeps_owner_array p st h (dataRef : ref) :
  h !! dataRef = Some (data p) →
  (∃ rows h',
     sortedData_cmd (columns p) (sortState st) dataRef h = Some (rows, h')
     ∧ h' !! dataRef = Some (data p)
     ∧ (∀ a l, h !! a = Some l → h' !! a = Some l)
     ∧ h' !! rows = Some (sortedData p st)
     ∧ (h !! rows = None
        ↔ is_Some (active_column (columns p) (sortState st))))
  ∧ (∀ columnKeys, ∃ st' h',
       activations_cmd p dataRef columnKeys st h = Some (st', h')
       ∧ h' !! dataRef = Some (data p)
       ∧ (∀ a l, h !! a = Some l → h' !! a = Some l)).
Proof.
  intros Hdata. split; [by apply sortedData_cmd_spec |].
  intros columnKeys.
  destruct (activations_cmd_spec p columnKeys st h dataRef Hdata)
    as (st' & h' & Hrun & _ & Hdata' & Hframe).
  by exists st', h'.
Qed.

End owner_array.

Section filter_facts.
Import JS.
Context {A : Type}.
Implicit Types (l : list A) (p q : A → nat → bool).





End filter_facts.

(** ** The table: selection *)

Section table_selection.
Import JS DataTable.
Context `{LocaleCompare}.

Lemma lookup_row_keys p st i :
  row_keys p st !! i = (λ r, getRowKey p r i) <$> sortedData p st !! i.
Proof. apply lookup_map. Qed.

Lemma elem_of_row_keys p st k :
  k ∈ row_keys p st
  ↔ ∃ i record, sortedData p st !! i = Some record ∧ getRowKey p record i = k.
Proof.
  rewrite list_elem_of_lookup. split.
  - intros [i Hi]. rewrite lookup_row_keys in Hi.
    destruct (sortedData p st !! i) as [record|] eqn:Hr; [| done].
    injection Hi as <-. eauto.
  - intros (i & record & Hr & <-). exists i.
    by rewrite lookup_row_keys, Hr.
Qed.



Lemma sortedData_with_selectedRows p st sel :
  sortedData p (with_selectedRows st sel) = sortedData p st.
Proof. done. Qed.


End table_selection.


Section header_checkbox.
Import JS DataTable.
Context `{LocaleCompare}.


End header_checkbox.

Section header_checkbox_examples.
Import JS DataTable Examples.
#[local] Existing Instance CodeUnits.collation.



End header_checkbox_examples.

Section row_checkbox.
Import JS DataTable.
Context `{LocaleCompare}.




End row_checkbox.

Section row_checkbox_examples.
Import JS DataTable Examples.
#[local] Existing Instance CodeUnits.collation.


End row_checkbox_examples.

(** ** The input field *)


Section input_field.
Import InputField.

Lemma clear_button_rendered p st :
  is_Some (rendered_clear_button (render_view p st))
  ↔ showClearButton p = true ∧ inputValue st ≠ EmptyString
    ∧ loading p = false.
Proof.
  unfold rendered_clear_button, render_view, truthy. simpl.
  destruct (showClearButton p), (loading p), (isPassword p);
    case_bool_decide; simpl; split;
    try (intros [? ?]; done); try (intros (? & ? & ?); done);
    try (intros _; by eexists); done.
Qed.

Lemma clear_button_onClick p st b :
  rendered_clear_button (render_view p st) = Some b →
  onClick b = handleClear p st.
Proof.
  unfold rendered_clear_button, render_view. simpl.
  repeat (case_match; simpl; try done); by intros [= <-].
Qed.

(** After mounting, and as long as the owner passes no [value], the buffer
    the clear button is decided on is the text the input shows. *)
Lemma buffer_is_current_value p st :
  st = mount p ∨ value p = None → inputValue st = current_value p st.
Proof.
  unfold current_value. intros [-> | ->]; [| done].
  simpl. by destruct (value p).
Qed.

(** Clearing is the edit to the empty text. *)
Lemma handleClear_is_edit p st :
  handleClear p st = handleChange p EmptyString st
  ∧ inputValue (handleClear p st).1 = EmptyString
  ∧ (onChange p = true → (handleClear p st).2 = [Change EmptyString]).
Proof. unfold handleClear, handleChange. simpl. by split_and!; [| | intros ->]. Qed.

(** C7: On a password field the reveal toggle is rendered exactly when
    [loading] is off; the input is mounted masked; activating the toggle
    turns a masked input into a plain one and a plain one into a masked one,
    calls nothing and leaves the text as it is. *)
Theorem C7_password_reveal p st :
  type p = Some password →
  let st' := (togglePasswordVisibility st).1 in
  (is_Some (rendered_reveal_toggle (render_view p st)) ↔ loading p = false)
  ∧ (∀ b, rendered_reveal_toggle (render_view p st) = Some b →
          onClick b = togglePasswordVisibility st)
  ∧ input_type (render_view p (mount p)) = password
  ∧ input_type (render_view p st')
    = match input_type (render_view p st) with
      | password => text
      | _ => password
      end
  ∧ input_type (render_view p st) ∈ [password; text]
  ∧ input_value (render_view p st') = input_value (render_view p st)
  ∧ inputValue st' = inputValue st
  ∧ (togglePasswordVisibility st).2 = [].
Proof.
  intros Htype st'. subst st'.
  unfold rendered_reveal_toggle, render_view, actualType, isPassword. simpl.
  rewrite Htype. simpl. rewrite orb_true_r. simpl. split_and!; try done.
  - destruct (loading p); simpl; split; intros Hx;
      try done; try (by destruct Hx); by eexists.
  - intros b. destruct (loading p); simpl; [done | by intros [= <-]].
  - destruct (showPassword st); simpl; done.
  - destruct (showPassword st); simpl; set_solver.
Qed.

End input_field.

Section input_field_examples.
Import InputField FieldExamples.

Lemma C7_password_reveal_witness :
  input_type (render_view passwordField (mount passwordField)) = password
  ∧ input_type
      (render_view passwordField
         (togglePasswordVisibility (mount passwordField)).1) = text.
Proof.
  pose proof (C7_password_reveal passwordField (mount passwordField) eq_refl)
    as (_ & _ & Hmount & Hflip & _).
  split; [exact Hmount | exact Hflip].
Defined.

(** C6 on controlled fields, where the clear button follows the buffer
    and not the text shown.  The field of the story "With Clear Button"
    renders the clear button when mounted; once the button was activated the
    input still shows "Clear me!", the clear feature is on and the field is
    not loading, and no clear button is rendered.  A field the owner renders
    again with the text "x" after an empty text renders no clear button; one
    the owner renders again with the empty text after "abc" shows the empty
    text and renders the clear button. *)
Theorem C6_clear_button_follows_buffer :
  is_Some (rendered_clear_button (render_view clearMe (mount clearMe)))
  ∧ (let '(p, st) := cleared in
     input_value (render_view p st) = "Clear me!"
     ∧ showClearButton p = true ∧ loading p = false
     ∧ rendered_clear_button (render_view p st) = None)
  ∧ (let '(p, st) := filled in
     input_value (render_view p st) = "x"
     ∧ showClearButton p = true ∧ loading p = false
     ∧ rendered_clear_button (render_view p st) = None)
  ∧ (let '(p, st) := emptied in
     input_value (render_view p st) = EmptyString
     ∧ is_Some (rendered_clear_button (render_view p st))).
Proof. vm_compute. split_and!; done || by eexists. Qed.

End input_field_examples.

(** ** The components on the example tables *)

Section table_examples.
Import JS DataTable Examples.
#[local] Existing Instance CodeUnits.collation.

(** The specification's example: one activation of the name column shows
    Ann before Bob, a second Bob before Ann, a third the input order. *)
Example people_sort_cycle :
  let st1 := handleSort people "name" initial in
  let st2 := handleSort people "name" st1 in
  let st3 := handleSort people "name" st2 in
  sortedData people st1 = [ann; bob]
  ∧ sortedData people st2 = [bob; ann]
  ∧ sortedData people st3 = [bob; ann].
Proof. by vm_compute. Qed.

Lemma C1_three_activations_witness :
  let st0 := {| selectedRows := ∅; sortState := sortState initial |} in
  let st1 := handleSort people (key nameColumn) st0 in
  let st2 := handleSort people (key nameColumn) st1 in
  let st3 := handleSort people (key nameColumn) st2 in
  sortState st3
    = {| SortState.key := None; SortState.direction := None |}
  ∧ selectedRows st3 = ∅
  ∧ sortedData people st3 = data people
  ∧ (NoDup (key <$> columns people) →
     sortState st1
       = {| SortState.key := Some (key nameColumn);
            SortState.direction := Some asc |}
     ∧ sortState st2
       = {| SortState.key := Some (key nameColumn);
            SortState.direction := Some desc |})
  ∧ (∀ st, SortState.direction (sortState st) = None →
           sortedData people st = data people).
Proof.
  apply (C1_three_activations_restore_order people nameColumn ∅).
  - simpl. constructor.
  - reflexivity.
Defined.

(** In [guests] sorted by name, the record without a name is last. *)
Lemma X20_null_rows_witness : (0 < 2)%nat.
Proof.
  apply (X20_null_rows_sort_last guests (handleSort guests "name" initial)
           nameColumn asc 2 0 anonymous ann); by vm_compute.
Defined.

(** C3 on a sortable column whose key is the empty string, in a table whose
    first record has no name: after the first activation the sort state is
    ascending on that column, after the second descending, the header
    announces the one and the other, and in both the rows are shown in
    input order, the record without a name first, before Bob and Ann. *)
Theorem C3_empty_key_null_row_stays_first :
  let st1 := handleSort unkeyed_guests (key unnamedColumn) initial in
  let st2 := handleSort unkeyed_guests (key unnamedColumn) st1 in
  nullish (get anonymous (dataIndex unnamedColumn)) = true
  ∧ nullish (get bob (dataIndex unnamedColumn)) = false
  ∧ sortState st1
    = {| SortState.key := Some EmptyString; SortState.direction := Some asc |}
  ∧ aria_sort (render_header unkeyed_guests st1 unnamedColumn)
    = Some "ascending"
  ∧ sortedData unkeyed_guests st1 = [anonymous; bob; ann]
  ∧ sortState st2
    = {| SortState.key := Some EmptyString; SortState.direction := Some desc |}
  ∧ aria_sort (render_header unkeyed_guests st2 unnamedColumn)
    = Some "descending"
  ∧ sortedData unkeyed_guests st2 = [anonymous; bob; ann].
Proof. by vm_compute. Qed.

Example guests_descending :
  let st2 := handleSort guests "name" (handleSort guests "name" initial) in
  sortedData guests st2 = [bob; ann; anonymous].
Proof. by vm_compute. Qed.

(** C5 on a sortable column whose key is the empty string: after the first
    activation the sort state is ascending on that column and the header
    announces it, and the rows are shown in input order, Bob before Ann. *)
Theorem C5_empty_key_stays_unsorted :
  let st1 := handleSort unkeyed (key unnamedColumn) initial in
  sortState st1
    = {| SortState.key := Some EmptyString; SortState.direction := Some asc |}
  ∧ aria_sort (render_header unkeyed st1 unnamedColumn) = Some "ascending"
  ∧ sortedData unkeyed st1 = [bob; ann]
  ∧ 0 < localeCompare "Bob" "Ann".
Proof. by vm_compute. Qed.

Lemma C8_row_click_witness :
  ∃ record,
    sortedData people initial !! 0%nat = Some record
    ∧ ((∃ e, e ∈ [checkbox; td; tr] ∧ is_checkbox_input e = true) →
       row_onClick (render_row people initial bob 0) [checkbox; td; tr] = [])
    ∧ ((∀ e, e ∈ [checkbox; td; tr] → is_checkbox_input e = false) →
       onRowClick people = true →
       row_onClick (render_row people initial bob 0) [checkbox; td; tr]
       = [RowClick record 0]).
Proof.
  eapply (C8_row_click people initial _ _ _ 0%nat
            (render_row people initial bob 0) [checkbox; td; tr]);
    reflexivity.
Defined.

Example people_row_clicks :
  row_onClick (render_row people initial bob 0) [checkbox; td; tr] = []
  ∧ row_onClick (render_row people initial bob 0) [td; tr] = [RowClick bob 0].
Proof. by vm_compute. Qed.

(** Sorting [people] by name on the heap: the rows are in a new array and
    the owner's array still holds Bob before Ann. *)
Example people_sorted_on_heap :
  let st := handleSort people "name" initial in
  let h : Heap Record := {[ 1%positive := data people ]} in
  sortedData_cmd (columns people) (sortState st) 1%positive h
  = Some (2%positive, {[ 1%positive := [bob; ann]; 2%positive := [ann; bob] ]}).
Proof. by vm_compute. Qed.

Lemma C10_owner_array_witness :
  let st := handleSort people "name" initial in
  let h : Heap Record := {[ 1%positive := data people ]} in
  (∃ rows h',
     sortedData_cmd (columns people) (sortState st) 1%positive h
     = Some (rows, h')
     ∧ h' !! 1%positive = Some (data people)
     ∧ (∀ a l, h !! a = Some l → h' !! a = Some l)
     ∧ h' !! rows = Some (sortedData people st)
     ∧ (h !! rows = None
        ↔ is_Some (active_column (columns people) (sortState st))))
  ∧ (∀ columnKeys, ∃ st' h',
       activations_cmd people 1%positive columnKeys st h = Some (st', h')
       ∧ h' !! 1%positive = Some (data people)
       ∧ (∀ a l, h !! a = Some l → h' !! a = Some l)).
Proof.
  apply (C10_sorting_keeps_owner_array people
           (handleSort people "name" initial)
           {[ 1%positive := data people ]} 1%positive).
  by vm_compute.
Defined.

End table_examples.

(** * Further properties of the table *)

(** What [sort] guarantees for a comparator that sends one class of
    elements behind all others and is consistent on the rest: the rest is
    sorted as if the class were not there. *)
Section sort_valued.
Import JS.
Context {A : Type} (comparefn : A → A → Z) (late : A → bool) (Q : A → Prop).
Hypothesis late_pivot : ∀ a b, late a = true → 0 ≤ comparefn a b.
Hypothesis early_pivot :
  ∀ a b, late a = false → late b = true → comparefn a b < 0.
Hypothesis comparefn_swap :
  ∀ a b, Q a → Q b → 0 ≤ comparefn a b → comparefn b a ≤ 0.
Hypothesis comparefn_trans :
  ∀ a b c, Q a → Q b → Q c →
    comparefn a b ≤ 0 → comparefn b c ≤ 0 → comparefn a c ≤ 0.

Lemma sort_from_split l front back :
  Forall (λ x, late x = false) front → Forall (λ x, late x = true) back →
  ∃ back',
    foldl (λ sorted pivot, place comparefn pivot sorted) (front ++ back) l
    = foldl (λ sorted pivot, place comparefn pivot sorted) front
        (base.filter (λ x, late x = false) l) ++ back'
    ∧ Forall (λ x, late x = true) back'.
Proof.
  revert front back. induction l as [|x l IH]; intros front back Hfront Hback.
  { exists back. by rewrite filter_nil. }
  simpl. rewrite filter_cons. destruct (late x) eqn:Hx.
  - rewrite decide_False by done.
    rewrite (place_late comparefn late late_pivot) by done.
    rewrite <- app_assoc. apply IH; [done |].
    apply Forall_app. by split; [| apply Forall_singleton].
  - rewrite decide_True by done. simpl.
    rewrite (place_early comparefn late early_pivot) by done.
    apply IH; [| done]. rewrite place_Permutation. by constructor.
Qed.

Lemma sort_split l :
  ∃ back,
    sort comparefn l
    = sort comparefn (base.filter (λ x, late x = false) l) ++ back
    ∧ Forall (λ x, late x = true) back.
Proof.
  unfold sort.
  destruct (sort_from_split l [] []) as (back & Heq & Hback); [done | done |].
  by exists back.
Qed.

Lemma sort_valued_ordered l i j a b :
  Forall (λ x, late x = false → Q x) l →
  (i < j)%nat →
  sort comparefn l !! i = Some a → sort comparefn l !! j = Some b →
  late a = false → late b = false →
  comparefn a b ≤ 0.
Proof.
  intros HQ Hij Hi Hj Ha Hb.
  destruct (sort_split l) as (back & Heq & Hback). rewrite Heq in Hi, Hj.
  set (valued := sort comparefn (base.filter (λ x, late x = false) l)) in *.
  assert (∀ n x, (valued ++ back) !! n = Some x → late x = false →
                 valued !! n = Some x) as Hvalued.
  { intros n x Hn Hx. destruct (decide (n < length valued)%nat).
    - by rewrite lookup_app_l in Hn.
    - rewrite lookup_app_r in Hn by lia.
      rewrite Forall_lookup in Hback. specialize (Hback _ _ Hn). congruence. }
  apply (StronglySorted_lookup (not_after comparefn) valued i j);
    [| done | by apply Hvalued | by apply Hvalued].
  apply (sort_sorted comparefn Q); [done | done |].
  apply Forall_forall. intros x Hx. apply list_elem_of_filter in Hx as [Hx Hin].
  rewrite Forall_forall in HQ. by apply HQ.
Qed.

End sort_valued.

Section sorted_rows.
Import JS DataTable.
Context `{LocaleCompare}.

(** X1: In every state the rows shown are the input rows in some order:
    sorting neither drops nor adds nor repeats a record. *)
Theorem X1_sorted_rows_are_the_input_rows p st :
  sortedData p st ≡ₚ data p
  ∧ length (sortedData p st) = length (data p)
  ∧ (∀ r, r ∈ sortedData p st ↔ r ∈ data p).
Proof.
  pose proof (sortedData_Permutation p st) as Hperm.
  split_and!; [done | by rewrite Hperm |].
  intros r. by rewrite Hperm.
Qed.

Lemma compare_rows_numbers column dir a b x y :
  get a (dataIndex column) = VNumber x →
  get b (dataIndex column) = VNumber y →
  compare_rows column dir a b
  = match dir with
    | asc => x - y
    | desc => - (x - y)
    end.
Proof. intros Ha Hb. unfold compare_rows. by rewrite Ha, Hb. Qed.

(** The rows with a value, in a column that may also hold null or nothing:
    they are sorted as if the other rows were not there. *)
Lemma sortedData_valued_ordered p st column dir (Q : Record → Prop) i j a b :
  active_column (columns p) (sortState st) = Some (column, dir) →
  (∀ r, r ∈ data p → nullish (get r (dataIndex column)) = false → Q r) →
  (∀ r1 r2, Q r1 → Q r2 →
     0 ≤ compare_rows column dir r1 r2 → compare_rows column dir r2 r1 ≤ 0) →
  (∀ r1 r2 r3, Q r1 → Q r2 → Q r3 →
     compare_rows column dir r1 r2 ≤ 0 → compare_rows column dir r2 r3 ≤ 0 →
     compare_rows column dir r1 r3 ≤ 0) →
  (i < j)%nat →
  sortedData p st !! i = Some a →
  sortedData p st !! j = Some b →
  nullish (get a (dataIndex column)) = false →
  nullish (get b (dataIndex column)) = false →
  compare_rows column dir a b ≤ 0.
Proof.
  unfold sortedData. intros -> HQ Hswap Htrans.
  apply (sort_valued_ordered (compare_rows column dir)
           (λ r, nullish (get r (dataIndex column))) Q); try done.
  - intros x y Hx. unfold compare_rows. by rewrite Hx.
  - intros x y Hx Hy. unfold compare_rows. by rewrite Hx, Hy.
  - apply Forall_forall. intros r Hr. by apply HQ.
Qed.

(** X2: While a column whose values are integers, null or missing is the
    sorted one, the rows that hold an integer are shown in numeric order:
    non-decreasing in direction [asc], non-increasing in direction [desc].
    (A column that also holds [NaN], on which the comparator is not
    consistent, is not covered.) *)
Theorem X2_number_column_in_numeric_order p st column dir i j a b x y :
  active_column (columns p) (sortState st) = Some (column, dir) →
  (∀ r, r ∈ data p →
     nullish (get r (dataIndex column)) = true
     ∨ ∃ n, get r (dataIndex column) = VNumber n) →
  (i < j)%nat →
  sortedData p st !! i = Some a →
  sortedData p st !! j = Some b →
  get a (dataIndex column) = VNumber x →
  get b (dataIndex column) = VNumber y →
  match dir with
  | asc => x ≤ y
  | desc => y ≤ x
  end.
Proof.
  intros Hactive Hnum Hij Hi Hj Hx Hy.
  pose proof (sortedData_valued_ordered p st column dir
    (λ r, ∃ n, get r (dataIndex column) = VNumber n) i j a b Hactive) as Hle.
  rewrite (compare_rows_numbers _ _ _ _ _ _ Hx Hy) in Hle.
  assert (match dir with asc => x - y | desc => - (x - y) end ≤ 0) as Hdir;
    [| destruct dir; lia].
  apply Hle; [| | | done | done | done | by rewrite Hx | by rewrite Hy].
  - intros r Hr Hnull. destruct (Hnum r Hr) as [Hn | Hn]; [congruence | done].
  - intros r1 r2 [n1 H1] [n2 H2].
    rewrite (compare_rows_numbers _ _ _ _ _ _ H1 H2).
    rewrite (compare_rows_numbers _ _ _ _ _ _ H2 H1).
    destruct dir; lia.
  - intros r1 r2 r3 [n1 H1] [n2 H2] [n3 H3].
    rewrite (compare_rows_numbers _ _ _ _ _ _ H1 H2).
    rewrite (compare_rows_numbers _ _ _ _ _ _ H2 H3).
    rewrite (compare_rows_numbers _ _ _ _ _ _ H1 H3).
    destruct dir; lia.
Qed.

(** X3: While a column whose values are strings, null or missing is the
    sorted one, the rows that hold a string are shown in the order of
    [localeCompare]: ascending in direction [asc], descending in direction
    [desc]. *)
Theorem X3_string_column_in_locale_order p st column dir i j a b x y :
  active_column (columns p) (sortState st) = Some (column, dir) →
  (∀ r, r ∈ data p →
     nullish (get r (dataIndex column)) = true
     ∨ ∃ s, get r (dataIndex column) = VString s) →
  (i < j)%nat →
  sortedData p st !! i = Some a →
  sortedData p st !! j = Some b →
  get a (dataIndex column) = VString x →
  get b (dataIndex column) = VString y →
  match dir with
  | asc => localeCompare x y ≤ 0
  | desc => 0 ≤ localeCompare x y
  end.
Proof.
  intros Hactive Hstr Hij Hi Hj Hx Hy.
  pose proof (sortedData_valued_ordered p st column dir
    (λ r, ∃ s, get r (dataIndex column) = VString s) i j a b Hactive) as Hle.
  rewrite (compare_rows_strings _ _ _ _ _ _ Hx Hy) in Hle.
  assert (match dir with
          | asc => localeCompare x y
          | desc => - localeCompare x y
          end ≤ 0) as Hdir; [| destruct dir; lia].
  apply Hle; [| | | done | done | done | by rewrite Hx | by rewrite Hy].
  - intros r Hr Hnull. destruct (Hstr r Hr) as [Hn | Hn]; [congruence | done].
  - intros r1 r2 [s1 H1] [s2 H2].
    rewrite (compare_rows_strings _ _ _ _ _ _ H1 H2).
    rewrite (compare_rows_strings _ _ _ _ _ _ H2 H1).
    pose proof (localeCompare_swap s1 s2). destruct dir; lia.
  - intros r1 r2 r3 [s1 H1] [s2 H2] [s3 H3].
    rewrite (compare_rows_strings _ _ _ _ _ _ H1 H2).
    rewrite (compare_rows_strings _ _ _ _ _ _ H2 H3).
    rewrite (compare_rows_strings _ _ _ _ _ _ H1 H3).
    destruct dir; [apply localeCompare_trans |].
    intros H12 H23.
    pose proof (localeCompare_swap s1 s2).
    pose proof (localeCompare_swap s2 s3).
    pose proof (localeCompare_swap s1 s3).
    pose proof (localeCompare_trans s3 s2 s1). lia.
Qed.

End sorted_rows.

Section sort_state.
Import JS DataTable.

Lemma handleSort_wf p columnKey st :
  sortState_wf (columns p) (sortState st) →
  sortState_wf (columns p) (sortState (handleSort p columnKey st)).
Proof.
  intros Hwf. unfold handleSort.
  destruct (find_column _ _) as [column|] eqn:Hfind; [| done].
  destruct (sortable column) eqn:Hsortable; [| done].
  simpl. unfold next_sortState, sortState_wf.
  case_bool_decide; [| simpl; eauto].
  destruct (SortState.direction (sortState st)) as [[]|]; simpl; eauto.
Qed.

Lemma handleSort_selectedRows p columnKey st :
  selectedRows (handleSort p columnKey st) = selectedRows st.
Proof. unfold handleSort. by repeat case_match. Qed.

Lemma activate_each_wf p columnKeys st :
  sortState_wf (columns p) (sortState st) →
  sortState_wf (columns p) (sortState (activate_each p columnKeys st))
  ∧ selectedRows (activate_each p columnKeys st) = selectedRows st.
Proof.
  unfold activate_each. revert st.
  induction columnKeys as [|k ks IH]; intros st Hwf; simpl; [done |].
  destruct (IH (handleSort p k st)) as [Hwf' Hsel].
  { by apply handleSort_wf. }
  split; [done |]. by rewrite Hsel, handleSort_selectedRows.
Qed.

(** X4: Header activations keep the sort state well formed and never touch
    the selection: after any sequence of activations from a well-formed
    state, the key and the direction are both null or both set, a set key
    is one under which a sortable column is found, and the selected keys
    are the ones selected before. *)
Theorem X4_activations_keep_sort_state_well_formed p columnKeys st :
  sortState_wf (columns p) (sortState st) →
  let st' := activate_each p columnKeys st in
  sortState_wf (columns p) (sortState st')
  ∧ (SortState.key (sortState st') = None
     ↔ SortState.direction (sortState st') = None)
  ∧ selectedRows st' = selectedRows st.
Proof.
  intros Hwf st'. destruct (activate_each_wf p columnKeys st Hwf) as [Hwf' Hsel].
  fold st' in Hwf', Hsel. split_and!; [done | | done].
  unfold sortState_wf in Hwf'.
  destruct (SortState.key (sortState st')), (SortState.direction (sortState st'));
    done.
Qed.

(** X5: With distinct column keys at most one header is announced as
    sorted: two columns whose headers carry [aria-sort] ascending or
    descending are the same column. *)
Theorem X5_one_sorted_header `{LocaleCompare} p st i j ci cj :
  NoDup (key <$> columns p) →
  columns p !! i = Some ci → columns p !! j = Some cj →
  aria_sort (render_header p st ci) ∈ [Some "ascending"; Some "descending"] →
  aria_sort (render_header p st cj) ∈ [Some "ascending"; Some "descending"] →
  i = j.
Proof.
  intros Hnd Hi Hj Hai Haj.
  assert (∀ c, aria_sort (render_header p st c)
                 ∈ [Some "ascending"; Some "descending"] →
               SortState.key (sortState st) = Some (key c)) as Hkey.
  { intros c. unfold render_header; simpl.
    rewrite !elem_of_cons, elem_of_nil.
    destruct (sortable c); [| by intros [?|[?|[]]]].
    case_bool_decide; [done |]. by intros [?|[?|[]]]. }
  pose proof (Hkey ci Hai) as Hci. pose proof (Hkey cj Haj) as Hcj.
  apply (NoDup_lookup (key <$> columns p) i j (key ci)); [done | |].
  - by rewrite list_lookup_fmap, Hi.
  - rewrite list_lookup_fmap, Hj. simpl. congruence.
Qed.

(** X6: In every state reached from the initial one by header activations,
    the icon and the [aria-sort] of a sortable column tell the sort state:
    the up chevron and "ascending" when the column is sorted ascending, the
    down chevron and "descending" when it is sorted descending, the faded
    chevron and "none" when another column or none is sorted. *)
Theorem X6_header_shows_the_sort_state `{LocaleCompare} p columnKeys column :
  sortable column = true →
  let st := activate_each p columnKeys initial in
  match header_icon st column with
  | Some ChevronUp =>
      sortState st = {| SortState.key := Some (key column);
                        SortState.direction := Some asc |}
      ∧ aria_sort (render_header p st column) = Some "ascending"
  | Some ChevronDown =>
      sortState st = {| SortState.key := Some (key column);
                        SortState.direction := Some desc |}
      ∧ aria_sort (render_header p st column) = Some "descending"
  | Some ChevronUpFaded =>
      SortState.key (sortState st) ≠ Some (key column)
      ∧ aria_sort (render_header p st column) = Some "none"
  | None => False
  end.
Proof.
  intros Hsortable st.
  destruct (activate_each_wf p columnKeys initial) as [Hwf _]; [done |].
  fold st in Hwf. unfold header_icon, getSortIcon, render_header. simpl.
  rewrite Hsortable. unfold sortState_wf in Hwf.
  destruct (sortState st) as [k d]; simpl in *.
  case_bool_decide as Hk.
  - rewrite bool_decide_eq_false_2 by done. done.
  - rewrite bool_decide_eq_true_2 by done. subst k.
    destruct d as [[]|]; done.
Qed.

End sort_state.

Section selection_and_rows.
Import JS DataTable.
Context `{LocaleCompare}.

Lemma getRowKey_position_free p r i j :
  position_free_keys p → r ∈ data p → getRowKey p r i = getRowKey p r j.
Proof.
  unfold position_free_keys, getRowKey.
  destruct (default _ (rowKey p)) as [field|f]; [| done].
  intros Hfree Hr. unfold nullish_coalesce. by rewrite (Hfree r Hr).
Qed.

Lemma filter_from_position_free (P : Record → nat → bool) (Q : Record → Prop)
    `{∀ r, Decision (Q r)} start (l : list Record) :
  (∀ r n, r ∈ l → P r n = bool_decide (Q r)) →
  filter_from P start l = base.filter Q l.
Proof.
  revert start. induction l as [|r l IH]; intros start HP; [done |].
  simpl. rewrite filter_cons, (HP r start) by left.
  rewrite (IH (S start)) by (intros; apply HP; by right).
  by case_bool_decide; case_decide.
Qed.

Lemma selected_records_position_free p st :
  position_free_keys p →
  selected_records p st
  = base.filter (λ r, getRowKey p r 0 ∈ selectedRows st) (sortedData p st).
Proof.
  intros Hfree. unfold selected_records, filter.
  apply filter_from_position_free. intros r n Hr.
  rewrite (getRowKey_position_free p r n 0); [done | done |].
  by rewrite <- (sortedData_Permutation p st).
Qed.

(** X7: When no key depends on a position ([rowKey] is a function, or every
    record has a value under it), the selection follows the records through
    sorting: in two states with the same selected keys, whatever their sort
    states, a record is rendered selected in the one exactly when it is in
    the other, and the selected records are the same up to their order. *)
Theorem X7_selection_follows_the_records p st st' :
  position_free_keys p →
  selectedRows st' = selectedRows st →
  selected_records p st' ≡ₚ selected_records p st
  ∧ (∀ r i j, sortedData p st !! i = Some r → sortedData p st' !! j = Some r →
       row_selected (render_row p st' r j) = row_selected (render_row p st r i)).
Proof.
  intros Hfree Hsel. split.
  - rewrite !selected_records_position_free by done. rewrite Hsel.
    apply filter_Permutation.
    by rewrite !sortedData_Permutation.
  - intros r i j Hi Hj. simpl. rewrite Hsel.
    rewrite (getRowKey_position_free p r j i); [done | done |].
    rewrite <- (sortedData_Permutation p st). by eapply list_elem_of_lookup_2.
Qed.

(** X8: Toggling the checkbox of a row twice gives back the selection and
    the sort state there were. *)
Theorem X8_row_toggle_twice p st record index :
  let st1 := (handleRowSelect p record index st).1 in
  let st2 := (handleRowSelect p record index st1).1 in
  selectedRows st2 = selectedRows st ∧ sortState st2 = sortState st.
Proof.
  simpl. split; [| done].
  set (k := getRowKey p record index).
  destruct (decide (k ∈ selectedRows st)) as [Hin | Hnotin].
  - rewrite (bool_decide_eq_true_2 _ Hin).
    rewrite bool_decide_eq_false_2
      by (rewrite elem_of_difference, elem_of_singleton; intuition auto).
    apply set_eq. intros x.
    rewrite elem_of_union, elem_of_difference, elem_of_singleton.
    destruct (decide (x = k)) as [-> | Hne]; intuition auto.
  - rewrite (bool_decide_eq_false_2 _ Hnotin).
    rewrite bool_decide_eq_true_2
      by (rewrite elem_of_union, elem_of_singleton; intuition auto).
    apply set_eq. intros x.
    rewrite elem_of_difference, elem_of_union, elem_of_singleton.
    destruct (decide (x = k)) as [-> | Hne]; intuition auto.
Qed.

Lemma size_list_to_set_le (l : list Value) :
  (size (list_to_set l : gset Value) ≤ length l)%nat.
Proof.
  induction l as [|x l IH].
  { change (size (∅ : gset Value) ≤ 0)%nat. by rewrite size_empty. }
  rewrite list_to_set_cons, size_union_alt, size_singleton. simpl.
  pose proof (subseteq_size (list_to_set l ∖ {[x]}) (list_to_set l : gset Value)
                ltac:(apply subseteq_difference_l; done)).
  lia.
Qed.

Lemma size_list_to_set_NoDup (l : list Value) :
  size (list_to_set l : gset Value) = length l ↔ NoDup l.
Proof.
  split; [| apply size_list_to_set].
  induction l as [|x l IH]; [constructor |].
  rewrite list_to_set_cons. simpl.
  intros Hsize. pose proof (size_list_to_set_le l) as Hle.
  destruct (decide (x ∈ l)) as [Hin | Hnotin].
  - assert ({[x]} ∪ list_to_set l = (list_to_set l : gset Value)) as Heq.
    { apply subseteq_union_1_L, singleton_subseteq_l.
      by apply elem_of_list_to_set. }
    rewrite Heq in Hsize. lia.
  - constructor; [done |]. apply IH.
    rewrite size_union, size_singleton in Hsize; [lia |].
    apply disjoint_singleton_l. by rewrite elem_of_list_to_set.
Qed.

(** X9: On a selectable table that is shown, after the header checkbox
    selected all rows every row is rendered selected, and the header
    checkbox itself is rendered checked exactly when the keys of the rows
    are distinct. *)
Theorem X9_after_select_all p st :
  loading p = false → selectable p = true → data p ≠ [] →
  size (selectedRows st) ≠ length (sortedData p st) →
  let v := render_view p (handleSelectAll p st).1 in
  (∀ row, row ∈ view_body v → row_selected row = true)
  ∧ ∃ cb, view_select_all v = Some cb
      ∧ (checked cb = true ↔ NoDup (row_keys p st)).
Proof.
  intros Hloading Hselectable Hdata Hsize v. subst v.
  assert ((handleSelectAll p st).1
          = with_selectedRows st (list_to_set (row_keys p st))) as ->.
  { unfold handleSelectAll. by rewrite bool_decide_eq_false_2. }
  rewrite render_view_table by done. rewrite Hselectable. simpl.
  rewrite sortedData_with_selectedRows. split.
  - intros row Hrow. apply list_elem_of_lookup in Hrow as [i Hrow].
    rewrite lookup_map in Hrow.
    destruct (sortedData p st !! i) as [r|] eqn:Hr; [| done].
    injection Hrow as <-. simpl. apply bool_decide_eq_true_2.
    apply elem_of_list_to_set. fold (row_keys p st).
    apply elem_of_row_keys. eauto.
  - eexists. split; [done |]. simpl.
    assert (length (row_keys p st) = length (sortedData p st)) as Hlen
      by apply length_map.
    fold (row_keys p st). rewrite <- size_list_to_set_NoDup, Hlen.
    rewrite andb_true_iff, !bool_decide_eq_true.
    rewrite length_sortedData. split; [by intros [? _] |].
    intros ?. split; [done |]. destruct (data p); simpl in *; [done | lia].
Qed.

Lemma is_Some_if {A} (b : bool) (x : A) :
  is_Some (if b then Some x else None) ↔ b = true.
Proof.
  destruct b; split; intros Hb; try done; by destruct Hb.
Qed.

(** X10: A table that is shown is a grid over the columns and the sorted
    rows: one header cell per column, one body row per record, in each row
    one cell per column; row [i] carries the key of the [i]-th sorted record
    and is rendered selected exactly when that key is selected; the header
    checkbox and the row checkboxes are there exactly when the table is
    selectable, and a row's checkbox is checked exactly when the row is
    rendered selected. *)
Theorem X10_table_is_a_grid p st :
  loading p = false → data p ≠ [] →
  let v := render_view p st in
  length (view_header v) = length (columns p)
  ∧ length (view_body v) = length (data p)
  ∧ (is_Some (view_select_all v) ↔ selectable p = true)
  ∧ (∀ i row, view_body v !! i = Some row →
       length (row_cells row) = length (columns p)
       ∧ (is_Some (row_checkbox row) ↔ selectable p = true)
       ∧ (∀ cb, row_checkbox row = Some cb → checked cb = row_selected row)
       ∧ ∃ record, sortedData p st !! i = Some record
           ∧ row_key row = getRowKey p record i
           ∧ (row_selected row = true ↔ row_key row ∈ selectedRows st)).
Proof.
  intros Hloading Hdata v. subst v. rewrite render_view_table by done. simpl.
  split_and!.
  - by rewrite length_fmap.
  - by rewrite length_map, length_sortedData.
  - apply is_Some_if.
  - intros i row Hrow. rewrite lookup_map in Hrow.
    destruct (sortedData p st !! i) as [record|] eqn:Hrecord; [| done].
    injection Hrow as <-. simpl. split_and!.
    + by rewrite length_fmap.
    + apply is_Some_if.
    + intros cb. destruct (selectable p); [| done]. by intros [= <-].
    + exists record. split_and!; [done | done |].
      by rewrite bool_decide_eq_true.
Qed.

End selection_and_rows.

Section cell_content.
Import JS DataTable.

Lemma pretty_N_go_nonempty x s : s ≠ EmptyString → pretty_N_go x s ≠ EmptyString.
Proof.
  revert s. induction (N.lt_wf_0 x) as [x _ IH]; intros s Hs.
  destruct (decide (x = 0)%N) as [-> | Hx]; [by rewrite pretty_N_go_0 |].
  rewrite pretty_N_go_step by lia. apply IH; [| done].
  apply N.div_lt; lia.
Qed.

Lemma toString_number_nonempty n : toString (VNumber n) ≠ EmptyString.
Proof.
  unfold toString, pretty, pretty_Z.
  destruct n as [|x|x]; [done | | done].
  unfold pretty, pretty_positive, pretty, pretty_N.
  rewrite decide_False by done.
  rewrite pretty_N_go_step by lia. by apply pretty_N_go_nonempty.
Qed.

(** X11: In a column without a renderer, a cell whose value is undefined,
    null or the empty string shows the empty text, a cell whose value is a
    string shows that string, and a cell whose value is an integer, zero
    included, or a boolean, false included, never shows the empty text. *)
Theorem X11_cell_without_renderer column record index :
  render column = None →
  let value := get record (dataIndex column) in
  let cell := renderCellContent column record index in
  (value ∈ [VUndefined; VNull; VString EmptyString] → cell = EmptyString)
  ∧ (∀ s, value = VString s → cell = s)
  ∧ (∀ n, value = VNumber n → cell ≠ EmptyString)
  ∧ (∀ b, value = VBool b → cell ≠ EmptyString).
Proof.
  intros Hrender value cell. subst value cell.
  unfold renderCellContent. rewrite Hrender.
  rewrite !elem_of_cons, elem_of_nil. split_and!.
  - by intros [-> | [-> | [-> | []]]].
  - by intros s ->.
  - intros n ->. apply toString_number_nonempty.
  - by intros [] ->.
Qed.

End cell_content.

(** * Further properties of the input field *)

Section class_names.
Import InputField.

Lemma append_assoc (a b c : string) : (a +:+ b) +:+ c = a +:+ (b +:+ c).
Proof.
  induction a as [|x a IH]; [done |].
  change (String x ((a +:+ b) +:+ c) = String x (a +:+ b +:+ c)).
  by f_equal.
Qed.

Lemma append_empty_inv (a b : string) :
  a +:+ b = EmptyString → a = EmptyString.
Proof. by destruct a. Qed.

Lemma kept_class_Some c s : kept_class c = Some s → c = Some s ∧ s ≠ EmptyString.
Proof.
  destruct c as [t|]; simpl; [| done]. unfold truthy.
  case_bool_decide; simpl; [done |]. by intros [= ->].
Qed.

Lemma kept_nonempty classes :
  Forall (λ s, s ≠ EmptyString) (omap kept_class classes).
Proof.
  induction classes as [|c classes IH]; simpl; [constructor |].
  destruct (kept_class c) as [s|] eqn:Hc; [| done].
  constructor; [| done]. by apply kept_class_Some in Hc as [_ ?].
Qed.

Lemma join_empty separator l :
  Forall (λ s, s ≠ EmptyString) l →
  join separator l = EmptyString → l = [].
Proof.
  destruct l as [|x [|y l]]; simpl; [done | |].
  - intros Hne ->. by apply Forall_cons in Hne as [? _].
  - intros Hne Hj. apply append_empty_inv in Hj as ->.
    by apply Forall_cons in Hne as [? _].
Qed.

Lemma join_cons separator x l :
  l ≠ [] → join separator (x :: l) = x +:+ separator +:+ join separator l.
Proof. by destruct l. Qed.

Lemma join_app separator l1 l2 :
  l1 ≠ [] → l2 ≠ [] →
  join separator (l1 ++ l2)
  = join separator l1 +:+ separator +:+ join separator l2.
Proof.
  intros H1 H2. induction l1 as [|x l1 IH]; [done |].
  destruct l1 as [|y l1].
  - simpl. by destruct l2.
  - rewrite <- app_comm_cons.
    rewrite (join_cons _ x ((y :: l1) ++ l2)) by done.
    rewrite IH by done.
    rewrite (join_cons _ x (y :: l1)) by done.
    by rewrite !append_assoc.
Qed.

(** X12: [cn] drops every argument that is false, null, undefined or the
    empty string, wherever it stands, and gives the empty string exactly
    when it drops them all. *)
Theorem X12_cn_drops_falsy_arguments before c after classes :
  (kept_class c = None → cn (before ++ c :: after) = cn (before ++ after))
  ∧ (cn classes = EmptyString ↔ ∀ d, d ∈ classes → kept_class d = None).
Proof.
  split.
  - intros Hc. unfold cn. rewrite !omap_app. simpl. by rewrite Hc.
  - unfold cn. split.
    + intros Hj. apply join_empty in Hj; [| apply kept_nonempty].
      intros d Hd. destruct (kept_class d) as [s|] eqn:Hs; [| done].
      assert (s ∈ omap kept_class classes) as Hin
        by (apply list_elem_of_omap; eauto).
      rewrite Hj in Hin. inversion Hin.
    + intros Hall. assert (omap kept_class classes = []) as ->; [| done].
      induction classes as [|d classes IH]; [done |]. simpl.
      rewrite (Hall d) by left. apply IH. intros ? ?. apply Hall. by right.
Qed.

(** X13: A class name built by [cn] can be passed to [cn] again: the
    result is the one [cn] gives for the arguments written out in its
    place. *)
Theorem X13_cn_of_cn classes more :
  cn (Some (cn classes) :: more) = cn (classes ++ more).
Proof.
  unfold cn. rewrite omap_app.
  pose proof (kept_nonempty classes) as Hne.
  destruct (omap kept_class classes) as [|x kept] eqn:Hkept; [done |].
  assert (kept_class (Some (join " " (x :: kept)))
          = Some (join " " (x :: kept))) as Hjoin.
  { unfold kept_class, truthy. rewrite bool_decide_eq_false_2; [done |].
    intros Hj. by apply join_empty in Hj. }
  change (omap kept_class (Some (join " " (x :: kept)) :: more))
    with (match kept_class (Some (join " " (x :: kept))) with
          | Some y => y :: omap kept_class more
          | None => omap kept_class more
          end).
  rewrite Hjoin.
  destruct (omap kept_class more) as [|y kept'] eqn:Hmore.
  - by rewrite app_nil_r.
  - rewrite join_cons by done. by rewrite join_app.
Qed.

End class_names.

Section field_text.
Import InputField.

(** X14: Within one render, when the owner passes no [aria-describedby]
    of its own, [aria-describedby] is set exactly when the description
    paragraph is rendered and then is the paragraph's id; an
    [aria-describedby] the owner passes replaces it, paragraph or not.  A
    rendered label points to the input's id.  The paragraph is rendered
    exactly when the helper text or the error message is a non-empty
    string; its text is never empty, and it is the error message whenever
    that is a non-empty string, else the helper text. *)
Theorem X14_description_and_label t generated :
  let v := render_text t generated in
  (own_describedby t = None →
   aria_describedby v = description_id <$> rendered_description v)
  ∧ (∀ own, own_describedby t = Some own → aria_describedby v = own)
  ∧ (∀ l, rendered_label v = Some l → htmlFor l = input_id v)
  ∧ (is_Some (rendered_description v)
     ↔ is_kept (helperText t) = true ∨ is_kept (errorMessage t) = true)
  ∧ (∀ d, rendered_description v = Some d →
       description_text d ≠ EmptyString
       ∧ Some (description_text d)
         = (if is_kept (errorMessage t) then errorMessage t else helperText t)).
Proof.
  intros v. subst v. unfold render_text. simpl.
  assert (∀ l, match kept_class (label t) with
               | Some l0 =>
                   Some {| htmlFor := inputId t generated; label_text := l0 |}
               | None => None
               end = Some l → htmlFor l = inputId t generated) as Hlabel.
  { intros l. destruct (kept_class (label t)); [by intros [= <-] | done]. }
  assert (∀ own, own_describedby t = Some own →
            match own_describedby t with
            | Some own' => own'
            | None =>
                if is_kept (or_else (helperText t) (errorMessage t))
                then Some (inputId t generated +:+ "-description")
                else None
            end = own) as Hown.
  { by intros own ->. }
  split; [intros Hnone; rewrite Hnone | split; [exact Hown |]];
    clear Hown;
    destruct (kept_class (helperText t)) as [h|] eqn:Hh;
    destruct (kept_class (errorMessage t)) as [e|] eqn:He;
    unfold or_else, is_kept; rewrite ?Hh, ?He; simpl; rewrite ?Hh, ?He; simpl;
    try (apply kept_class_Some in Hh as [Hh ?]);
    try (apply kept_class_Some in He as [He ?]);
    rewrite ?Hh, ?He; simpl; try done;
    (split_and!; [done | |]).
  - split; [auto | by eexists].
  - intros d [= <-]. by split.
  - split; [auto | by eexists].
  - intros d [= <-]. by split.
  - split; [auto | by eexists].
  - intros d [= <-]. by split.
  - split; [by intros [? ?] | by intros [?|?]].
  - done.
Qed.

End field_text.

Section field_events.
Import InputField.

Lemma last_write_from written es :
  foldl (λ written e,
           match e with
           | Edit newValue => Some newValue
           | Clear => Some EmptyString
           | _ => written
           end) written es
  = match last_write es with
    | Some last => Some last
    | None => written
    end.
Proof.
  unfold last_write. revert written.
  induction es as [|e es IH]; intros written; simpl; [done |].
  rewrite IH. rewrite (IH (match e with
                           | Edit newValue => Some newValue
                           | Clear => Some EmptyString
                           | _ => None
                           end)).
  by destruct (foldl _ None es), e.
Qed.

Lemma last_props_from props es :
  foldl (λ props e,
           match e with
           | Rerender p' => Some p'
           | _ => props
           end) props es
  = match last_props es with
    | Some p' => Some p'
    | None => props
    end.
Proof.
  unfold last_props. revert props.
  induction es as [|e es IH]; intros props; simpl; [done |].
  rewrite IH. rewrite (IH (match e with
                           | Rerender p' => Some p'
                           | _ => None
                           end)).
  by destruct (foldl _ None es), e.
Qed.

(** X15: After any sequence of renders, edits, clears and toggles, the
    state of the field is read off the events: the buffer holds the text of
    the last edit, the empty text if a clear came last, and what it held
    before if there was neither, so that no render, whatever [value] it
    passes, changes it; the password is revealed or masked as before when
    the number of toggles is even and the other way round when it is odd;
    the props are those of the last render. *)
Theorem X15_state_after_events c es :
  inputValue (run c es).2 = default (inputValue c.2) (last_write es)
  ∧ showPassword (run c es).2
    = xorb (showPassword c.2) (Nat.odd (toggles es))
  ∧ (run c es).1 = default c.1 (last_props es).
Proof.
  revert c. induction es as [|e es IH]; intros [p st].
  { simpl. split_and!; [done | by destruct (showPassword st) | done]. }
  change (run (p, st) (e :: es)) with (run (step (p, st) e).1 es).
  destruct (IH (step (p, st) e).1) as (Hvalue & Hshow & Hprops).
  rewrite Hvalue, Hshow, Hprops. clear IH Hvalue Hshow Hprops.
  assert (last_write (e :: es)
          = match last_write es with
            | Some last => Some last
            | None => match e with
                      | Edit newValue => Some newValue
                      | Clear => Some EmptyString
                      | _ => None
                      end
            end) as ->.
  { unfold last_write at 1. simpl. by rewrite last_write_from. }
  assert (last_props (e :: es)
          = match last_props es with
            | Some last => Some last
            | None => match e with
                      | Rerender p' => Some p'
                      | _ => None
                      end
            end) as ->.
  { unfold last_props at 1. simpl. by rewrite last_props_from. }
  assert (toggles (e :: es)
          = match e with
            | Toggle => S (toggles es)
            | _ => toggles es
            end) as -> by (by destruct e).
  destruct e; simpl; (split_and!; [ | | ]);
    try (by destruct (last_write es));
    try (by destruct (last_props es)).
  rewrite Nat.odd_succ, <- Nat.negb_odd.
  by destruct (showPassword st), (Nat.odd _).
Qed.

(** X18: When the owner passes [onChange] in every render, it is told of
    every text the field writes, once and in order: the calls made while
    the events happen are the texts of the edits, and the empty text for
    each clear; toggles and renders report nothing. *)
Theorem X18_owner_hears_every_write c es :
  onChange c.1 = true →
  (∀ p', Rerender p' ∈ es → onChange p' = true) →
  reported c es = writes es.
Proof.
  revert c. induction es as [|e es IH]; intros [p st] Hp Hes; [done |].
  simpl in Hp. unfold writes. simpl.
  fold (writes es). rewrite IH.
  - destruct e; simpl; by rewrite ?Hp.
  - destruct e; simpl; try done. apply Hes. left.
  - intros p' Hin. apply Hes. by right.
Qed.

(** X16: A field whose type is not password never renders a reveal toggle,
    and its input has the type of the props, text when there is none,
    whatever the state. *)
Theorem X16_no_reveal_without_password p st :
  type p ≠ Some password →
  rendered_reveal_toggle (render_view p st) = None
  ∧ input_type (render_view p st) = default text (type p).
Proof.
  intros Htype.
  assert (isPassword p = false) as Hpw.
  { unfold isPassword. apply bool_decide_eq_false_2.
    destruct (type p) as [ty|]; simpl; [congruence | done]. }
  unfold rendered_reveal_toggle, render_view, actualType. simpl.
  rewrite Hpw. split; [| done]. by repeat (case_match; simpl).
Qed.

(** X17: The icons container is never rendered empty: when it is rendered
    it holds the spinner, the clear button or the reveal toggle.  The
    spinner and the buttons exclude each other, and a loading field renders
    the container with the spinner and disables the input. *)
Theorem X17_icons_container p st :
  let v := render_view p st in
  (∀ i, icons v = Some i →
     (spinner i = true
      ∨ is_Some (clear_button i) ∨ is_Some (reveal_toggle i))
     ∧ (spinner i = true → clear_button i = None ∧ reveal_toggle i = None))
  ∧ (loading p = true →
     input_disabled v = true ∧ ∃ i, icons v = Some i ∧ spinner i = true).
Proof.
  unfold render_view. simpl. split.
  - intros i.
    destruct (showClearButton p), (truthy (inputValue st)), (isPassword p),
      (loading p); simpl; intros [= <-]; simpl;
      (split; [| by intros ?]); eauto.
  - intros ->. rewrite !orb_true_r. split; [done |]. by eexists.
Qed.

End field_events.

(** * The demo application *)

Section demo_application.
Import JS App.
Context `{LocaleCompare} `{LowerCase}.

Lemma includes_empty s : includes s EmptyString = true.
Proof. by destruct s. Qed.

Lemma filteredUsers_no_criteria sampleUsers st :
  searchTerm st = EmptyString → filterStatus st = all →
  filteredUsers sampleUsers st = sampleUsers.
Proof.
  intros Hsearch Hstatus. unfold filteredUsers.
  induction sampleUsers as [|user users IH]; [done |]. simpl.
  assert (matches st user = true) as ->; [| by rewrite IH].
  unfold matches. rewrite Hsearch, Hstatus, toLowerCase_empty.
  by rewrite !includes_empty.
Qed.

(** X19: [App] and its table.  Without a search term and with the status
    filter on "all" the table gets every user; a table that is not loading
    shows an empty message exactly when the filter leaves no user, and that
    message is "No users available" only when there is no user at all,
    while a search or a status filter that leaves no user is answered with
    "No users found matching your criteria". *)
Theorem X19_app_table sampleUsers cols st tableState :
  (searchTerm st = EmptyString → filterStatus st = all →
   DataTable.data (table sampleUsers cols st) = row <$> sampleUsers)
  ∧ (isLoading st = false →
     (filteredUsers sampleUsers st = []
      ↔ DataTable.render_view (table sampleUsers cols st) tableState
        = DataTable.EmptyView (emptyMessage st))
     ∧ (DataTable.render_view (table sampleUsers cols st) tableState
        = DataTable.EmptyView "No users available" → sampleUsers = [])
     ∧ (sampleUsers ≠ [] → filteredUsers sampleUsers st = [] →
        DataTable.render_view (table sampleUsers cols st) tableState
        = DataTable.EmptyView "No users found matching your criteria")).
Proof.
  assert (isLoading st = false →
          filteredUsers sampleUsers st = []
          ↔ DataTable.render_view (table sampleUsers cols st) tableState
            = DataTable.EmptyView (emptyMessage st)) as Hempty.
  { intros Hl. unfold DataTable.render_view. simpl. rewrite Hl.
    rewrite length_fmap.
    destruct (filteredUsers sampleUsers st); simpl; by split. }
  assert (emptyMessage st = "No users available" →
          filteredUsers sampleUsers st = sampleUsers) as Hall.
  { unfold emptyMessage, InputField.truthy. intros Hmsg.
    apply filteredUsers_no_criteria;
      repeat case_bool_decide; simpl in Hmsg; done. }
  split_and!.
  - intros Hsearch Hstatus. simpl.
    by rewrite filteredUsers_no_criteria.
  - intros Hl. split_and!; [by apply Hempty | |].
    + intros Hview.
      assert (filteredUsers sampleUsers st = []
              ∧ emptyMessage st = "No users available") as [Hnone Hmsg].
      { revert Hview. unfold DataTable.render_view. simpl. rewrite Hl.
        rewrite length_fmap.
        destruct (filteredUsers sampleUsers st); simpl; [| done].
        by intros [= ->]. }
      by rewrite <- (Hall Hmsg).
    + intros Hsome Hnone. rewrite (proj1 (Hempty Hl) Hnone). f_equal.
      unfold emptyMessage in *. destruct (_ || _) eqn:Hcriteria; [done |].
      exfalso. apply Hsome. by rewrite <- (Hall eq_refl).
Qed.

End demo_application.

(** * The further properties on the example tables *)

Section further_examples.
Import JS DataTable Examples MoreExamples.
#[local] Existing Instance CodeUnits.collation.

Ltac each_record Hr :=
  simpl in Hr; rewrite ?elem_of_cons, elem_of_nil in Hr;
  repeat (destruct Hr as [-> | Hr]); [.. | destruct Hr].

(** [roster] sorted by age: Jane, 25, before John, 30, the record without
    an age last. *)
Example roster_by_age :
  sortedData roster (handleSort roster "age" initial) = [jane; john; ageless].
Proof. by vm_compute. Qed.

Lemma X2_number_column_witness : 25 ≤ 30.
Proof.
  apply (X2_number_column_in_numeric_order roster
           (handleSort roster "age" initial) ageColumn asc 0 1 jane john 25 30);
    try by vm_compute.
  intros r Hr. each_record Hr.
  - right. by exists 30.
  - by left.
  - right. by exists 25.
Defined.

Lemma X3_string_column_witness : localeCompare "Ann" "Bob" ≤ 0.
Proof.
  apply (X3_string_column_in_locale_order guests
           (handleSort guests "name" initial) nameColumn asc 0 1 ann bob
           "Ann" "Bob"); try by vm_compute.
  intros r Hr. each_record Hr.
  - by left.
  - right. by exists "Bob".
  - right. by exists "Ann".
Defined.

Lemma X4_activations_witness :
  let st' := activate_each testUsers ["name"; "age"; "email"; "age"] initial in
  sortState_wf (columns testUsers) (sortState st')
  ∧ (SortState.key (sortState st') = None
     ↔ SortState.direction (sortState st') = None)
  ∧ selectedRows st' = selectedRows initial.
Proof.
  apply (X4_activations_keep_sort_state_well_formed testUsers
           ["name"; "age"; "email"; "age"] initial).
  exact I.
Defined.

Example testUsers_activations :
  sortState (activate_each testUsers ["name"; "age"; "email"; "age"] initial)
  = {| SortState.key := Some "age"; SortState.direction := Some desc |}.
Proof. by vm_compute. Qed.

Lemma X5_one_sorted_header_witness : 2%nat = 2%nat.
Proof.
  apply (X5_one_sorted_header testUsers (handleSort testUsers "age" initial)
           2 2 ageColumn ageColumn).
  - apply (bool_decide_unpack _). by vm_compute.
  - reflexivity.
  - reflexivity.
  - apply (bool_decide_unpack _). by vm_compute.
  - apply (bool_decide_unpack _). by vm_compute.
Defined.

Lemma X6_header_witness :
  let st := activate_each testUsers ["age"; "age"] initial in
  match header_icon st ageColumn with
  | Some ChevronUp =>
      sortState st = {| SortState.key := Some (key ageColumn);
                        SortState.direction := Some asc |}
      ∧ aria_sort (render_header testUsers st ageColumn) = Some "ascending"
  | Some ChevronDown =>
      sortState st = {| SortState.key := Some (key ageColumn);
                        SortState.direction := Some desc |}
      ∧ aria_sort (render_header testUsers st ageColumn) = Some "descending"
  | Some ChevronUpFaded =>
      SortState.key (sortState st) ≠ Some (key ageColumn)
      ∧ aria_sort (render_header testUsers st ageColumn) = Some "none"
  | None => False
  end.
Proof.
  apply (X6_header_shows_the_sort_state testUsers ["age"; "age"] ageColumn).
  reflexivity.
Defined.

Lemma X7_selection_witness :
  let st := (handleRowSelect people bob 0 initial).1 in
  let st' := handleSort people "name" st in
  selected_records people st' ≡ₚ selected_records people st
  ∧ (∀ r i j, sortedData people st !! i = Some r →
       sortedData people st' !! j = Some r →
       row_selected (render_row people st' r j)
       = row_selected (render_row people st r i)).
Proof.
  apply (X7_selection_follows_the_records people
           (handleRowSelect people bob 0 initial).1
           (handleSort people "name" (handleRowSelect people bob 0 initial).1)).
  - intros r Hr. each_record Hr; reflexivity.
  - reflexivity.
Defined.

(** Bob, selected as the first row, is still the selected record when he
    is shown second. *)
Example people_selection_after_sort :
  let st := (handleRowSelect people bob 0 initial).1 in
  let st' := handleSort people "name" st in
  sortedData people st' = [ann; bob] ∧ selected_records people st' = [bob].
Proof. by vm_compute. Qed.

Lemma X9_select_all_witness :
  let v := render_view twins (handleSelectAll twins initial).1 in
  (∀ row, row ∈ view_body v → row_selected row = true)
  ∧ ∃ cb, view_select_all v = Some cb
      ∧ (checked cb = true ↔ NoDup (row_keys twins initial)).
Proof.
  apply (X9_after_select_all twins initial); by vm_compute.
Defined.

Lemma X10_grid_witness :
  let v := render_view testUsers initial in
  length (view_header v) = length (columns testUsers)
  ∧ length (view_body v) = length (data testUsers)
  ∧ (is_Some (view_select_all v) ↔ selectable testUsers = true)
  ∧ (∀ i row, view_body v !! i = Some row →
       length (row_cells row) = length (columns testUsers)
       ∧ (is_Some (row_checkbox row) ↔ selectable testUsers = true)
       ∧ (∀ cb, row_checkbox row = Some cb → checked cb = row_selected row)
       ∧ ∃ record, sortedData testUsers initial !! i = Some record
           ∧ row_key row = getRowKey testUsers record i
           ∧ (row_selected row = true
              ↔ row_key row ∈ selectedRows initial)).
Proof.
  apply (X10_table_is_a_grid testUsers initial); by vm_compute.
Defined.

(** The cells of the first row of the tests' table: the name, nothing for
    the missing email, the age. *)
Example testUsers_first_row_cells :
  row_cells (render_row testUsers initial john 0) = ["John Doe"; EmptyString; "30"].
Proof. by vm_compute. Qed.

Lemma X11_cell_witness :
  let value := get john (dataIndex ageColumn) in
  let cell := renderCellContent ageColumn john 0 in
  (value ∈ [VUndefined; VNull; VString EmptyString] → cell = EmptyString)
  ∧ (∀ s, value = VString s → cell = s)
  ∧ (∀ n, value = VNumber n → cell ≠ EmptyString)
  ∧ (∀ b, value = VBool b → cell ≠ EmptyString).
Proof.
  apply (X11_cell_without_renderer ageColumn john 0). reflexivity.
Defined.

End further_examples.

Section further_field_examples.
Import InputField FieldExamples.

Lemma X16_no_reveal_witness :
  rendered_reveal_toggle (render_view clearMe (mount clearMe)) = None
  ∧ input_type (render_view clearMe (mount clearMe))
    = default text (type clearMe).
Proof.
  apply (X16_no_reveal_without_password clearMe (mount clearMe)). done.
Defined.

Lemma X18_owner_hears_witness :
  reported (field None, mount (field None))
    [Edit "a"; Toggle; Clear; Rerender (field (Some "b")); Edit "c"]
  = writes [Edit "a"; Toggle; Clear; Rerender (field (Some "b")); Edit "c"].
Proof.
  apply (X18_owner_hears_every_write (field None, mount (field None))).
  - reflexivity.
  - intros p' Hin. rewrite !elem_of_cons, elem_of_nil in Hin.
    destruct Hin as [Hin|[Hin|[Hin|[Hin|[Hin|[]]]]]]; try discriminate Hin.
    by injection Hin as ->.
Defined.

Example field_reports :
  reported (field None, mount (field None))
    [Edit "a"; Toggle; Clear; Rerender (field (Some "b")); Edit "c"]
  = [Change "a"; Change EmptyString; Change "c"].
Proof. reflexivity. Qed.

(** [cn] on the arguments the input's class name is built from. *)
Example cn_example :
  cn [Some "w-full"; None; Some EmptyString; Some (cn [Some "px-3"; None; Some "py-2"]);
      Some "pr-10"]
  = "w-full px-3 py-2 pr-10".
Proof. reflexivity. Qed.

End further_field_examples.
